(** * Gilda: dictionary-based span detection and string-match scoring

    A shallow embedding of [gilda/scorer.py] and [gilda/ner.py].

    Python values are modelled as follows.
    - [str] is [string]; [len] is [String.length]; characters are [ascii].
    - [int] is [Z] where it may be negative, [nat] for offsets and positions,
      [positive] for the span lengths stored in the prefix index.
    - [dict] is [gmap], [set] is [gset], [list] is [list].
    - [None] is the [None] of [option].
    - Exceptions are the [Raise] outcome of [result]. *)

From Stdlib Require Import Ascii ZArith QArith DecimalString.
From stdpp Require Import base decidable option list sorting gmap strings.

(** String concatenation unfolds on a string that starts with a character. *)
Arguments String.append !_ _ : simpl nomatch.

Local Open Scope Z_scope.
Local Open Scope nat_scope.
Local Open Scope stdpp_scope.

(** ** Python basics *)

Module Py.

(** The exceptions raised by the modelled code. *)
Inductive exn : Type :=
  | ValueError
  | IndexError
  | TypeError
  | AttributeError.

(** The outcome of a Python call: a value or a raised exception. *)
Inductive result (A : Type) : Type :=
  | Ok (a : A)
  | Raise (e : exn).
Arguments Ok {A} a.
Arguments Raise {A} e.

#[global] Instance result_ret : MRet result := λ A a, Ok a.
#[global] Instance result_bind : MBind result := λ A B k r,
  match r with
  | Ok a => k a
  | Raise e => Raise e
  end.

Definition space : ascii := Ascii.ascii_of_nat 32.
Definition dash : ascii := Ascii.ascii_of_nat 45.
Definition period : ascii := Ascii.ascii_of_nat 46.
Definition tab : ascii := Ascii.ascii_of_nat 9.
Definition newline : ascii := Ascii.ascii_of_nat 10.

Definition chr (c : ascii) : string := String c "".

(** [c.isspace()] on the ASCII range: TAB, LF, VT, FF, CR, FS, GS, RS, US
    and the space. *)
Definition isspace (c : ascii) : bool :=
  let n := Ascii.nat_of_ascii c in
  ((9 <=? n) && (n <=? 13)) || ((28 <=? n) && (n <=? 32)).

(** [s.rstrip(c)]: [s] without its trailing run of [c]. *)
Fixpoint rstrip (c : ascii) (s : string) : string :=
  match s with
  | "" => ""
  | String a s' =>
      match rstrip c s' with
      | "" => if Ascii.eqb a c then "" else chr a
      | r => String a r
      end
  end.

(** [s.split()]: the maximal runs of non-whitespace characters of [s];
    [cur] is the run being read. *)
Fixpoint split_go (cur : string) (s : string) : list string :=
  match s with
  | "" => if decide (cur = "") then [] else [cur]
  | String c s' =>
      if isspace c
      then (if decide (cur = "") then split_go "" s' else cur :: split_go "" s')
      else split_go (cur +:+ chr c) s'
  end.

Definition split (s : string) : list string := split_go "" s.

(** [sep.join(l)]. *)
Fixpoint join (sep : string) (l : list string) : string :=
  match l with
  | [] => ""
  | [x] => x
  | x :: l' => x +:+ sep +:+ join sep l'
  end.

(** [l[i:j]] for [0 <= i]. *)
Definition slice {A : Type} (l : list A) (i j : nat) : list A :=
  take (j - i) (drop i l).

(** [str(n)] for an [int]. *)
Definition str_of_Z (n : Z) : string := NilZero.string_of_int (Z.to_int n).
Definition str_of_nat (n : nat) : string := str_of_Z (Z.of_nat n).

End Py.

(** ** gilda/scorer.py *)

Module Scorer.
Import Py.

(** The labels returned by [get_capitalization_pattern] of [gilda.process];
    the closed label set of the capitalization classifier. *)
Inductive CapPattern : Type :=
  | all_caps
  | all_lower
  | mixed
  | initial_cap
  | single_cap_letter
  | sentence_initial_cap
  | sentence_initial.

#[global] Instance CapPattern_eq_dec : EqDecision CapPattern.
Proof. solve_decision. Defined.

Definition CapPattern_to_nat (p : CapPattern) : nat :=
  match p with
  | all_caps => 0
  | all_lower => 1
  | mixed => 2
  | initial_cap => 3
  | single_cap_letter => 4
  | sentence_initial_cap => 5
  | sentence_initial => 6
  end.

Definition CapPattern_of_nat (n : nat) : CapPattern :=
  match n with
  | 0 => all_caps
  | 1 => all_lower
  | 2 => mixed
  | 3 => initial_cap
  | 4 => single_cap_letter
  | 5 => sentence_initial_cap
  | _ => sentence_initial
  end.

#[global] Instance CapPattern_countable : Countable CapPattern.
Proof.
  apply (inj_countable' CapPattern_to_nat CapPattern_of_nat).
  by intros [].
Defined.

Definition combo : Type := CapPattern * CapPattern.

(** [class Match]: every field but [query] and [ref] defaults to [None]. *)
Record Match : Type := mkMatch {
  query : string;
  ref : string;
  exact : option bool;
  space_mismatch : option bool;
  dash_mismatches : option (gset string);
  cap_combos : option (list combo)
}.

(** [self.exact is True] *)
Definition is_True (b : option bool) : bool :=
  match b with
  | Some true => true
  | _ => false
  end.

(** Iterating, testing membership in or taking [len] of [None] raises. *)
Definition iter {A : Type} (x : option A) : result A :=
  match x with
  | Some a => Ok a
  | None => Raise TypeError
  end.

(** [p in self.cap_combos] *)
Definition combo_in (p : combo) (m : Match) : result bool :=
  cs ← iter (cap_combos m); mret (bool_decide (p ∈ cs)).

(** [Match._query_cases] *)
Definition _query_cases (m : Match) : result (gset CapPattern) :=
  cs ← iter (cap_combos m); mret (list_to_set (cs.*1)).

(** [Match._ref_cases] *)
Definition _ref_cases (m : Match) : result (gset CapPattern) :=
  cs ← iter (cap_combos m); mret (list_to_set (cs.*2)).

(** [Match.score_short_abbr] *)
Definition score_short_abbr (m : Match) : result Z :=
  if bool_decide (String.length (ref m) ≤ 3)
  then
    a ← combo_in (all_caps, all_lower) m;
    if a : bool then mret 0%Z
    else
      b ← combo_in (all_lower, all_caps) m;
      mret (if b : bool then 0 else 1)%Z
  else mret 1%Z.

(** [Match.score_mixed] *)
Definition score_mixed (m : Match) : result Z :=
  a ← combo_in (mixed, mixed) m;
  if a : bool then mret 0%Z
  else
    qc ← _query_cases m;
    if bool_decide (mixed ∈ qc) then mret 1%Z
    else
      rc ← _ref_cases m;
      mret (if bool_decide (mixed ∈ rc) then 1 else 2)%Z.

(** [Match.score_exact] *)
Definition score_exact (m : Match) : result Z :=
  mret (if is_True (exact m) then 1 else 0)%Z.

(** [not self.cap_combos]: [None] and the empty list are falsy. *)
Definition combos_falsy (m : Match) : bool :=
  match cap_combos m with
  | None | Some [] => true
  | Some (_ :: _) => false
  end.

(** [set(self.cap_combos)] *)
Definition combo_set (m : Match) : result (gset combo) :=
  cs ← iter (cap_combos m); mret (list_to_set cs).

(** [Match.score_acic] *)
Definition score_acic (m : Match) : result Z :=
  if is_True (exact m) && combos_falsy m then mret 2%Z
  else
    s ← combo_set m;
    if bool_decide (s = {[ (sentence_initial, all_lower) ]}) then mret 2%Z
    else if is_True (exact m)
            && bool_decide (s ⊆ {[ (all_caps, sentence_initial_cap);
                                   (sentence_initial_cap, all_caps) ]})
    then mret 1%Z
    else mret 0%Z.

(** [Match.score_combo] *)
Definition score_combo (m : Match) : result Z :=
  qc ← _query_cases m;
  rc ← _ref_cases m;
  let query_combo := (4 - Z.of_nat (size qc))%Z in
  let ref_combo := (4 - Z.of_nat (size rc))%Z in
  let query_combo :=
    if bool_decide (single_cap_letter ∈ qc)
       && (bool_decide (all_caps ∈ qc) || bool_decide (initial_cap ∈ qc))
    then (query_combo + 1)%Z else query_combo in
  let ref_combo :=
    if bool_decide (single_cap_letter ∈ rc)
       && (bool_decide (all_caps ∈ rc) || bool_decide (initial_cap ∈ rc))
    then (ref_combo + 1)%Z else ref_combo in
  sic_lower ← combo_in (sentence_initial_cap, all_lower) m;
  let query_combo :=
    if (bool_decide (sentence_initial_cap ∈ qc)
        && (bool_decide (size qc = 1) && sic_lower))
       || negb (bool_decide
            (({[ single_cap_letter; initial_cap; all_lower ]} : gset CapPattern) ∩ qc = ∅))
    then (query_combo + 1)%Z else query_combo in
  mret (Z.max query_combo ref_combo).

(** [Match.score_dash] *)
Definition score_dash (m : Match) : result Z :=
  d ← iter (dash_mismatches m); mret (2 - Z.of_nat (size d))%Z.

(** *** [generate_match] *)

(** [s[0]] *)
Definition head (s : string) : result ascii :=
  match s with
  | "" => Raise IndexError
  | String c _ => Ok c
  end.

(** [s[1:]] *)
Definition tail (s : string) : string :=
  match s with
  | "" => ""
  | String _ s' => s'
  end.

(** [pieces[-1] += c]; the piece lists are never empty. *)
Fixpoint add_to_last (c : ascii) (pieces : list string) : list string :=
  match pieces with
  | [] => []
  | [p] => [p +:+ chr c]
  | p :: pieces' => p :: add_to_last c pieces'
  end.

(** The variables of the alignment loop. *)
Record walk_state : Type := mkWalk {
  query_suffix : string;
  ref_suffix : string;
  query_pieces : list string;
  ref_pieces : list string;
  dash_seen : gset string
}.

(** How one pass through the loop body ends: the loop goes on, or the
    function returns. *)
Inductive step : Type :=
  | Continue (st : walk_state)
  | Return (m : Match).

(** The part of the loop body that deals with dashes and plain characters. *)
Definition dash_step (st : walk_state) : result step :=
  q0 ← head (query_suffix st);
  r0 ← head (ref_suffix st);
  let qd := bool_decide (q0 = dash) in
  let rd := bool_decide (r0 = dash) in
  if qd && rd then
    mret (Continue
      (mkWalk (tail (query_suffix st)) (tail (ref_suffix st))
              (query_pieces st ++ [""]) (ref_pieces st ++ [""])
              (dash_seen st)))
  else if qd && negb rd then
    mret (Continue
      (mkWalk (tail (query_suffix st)) (ref_suffix st)
              (query_pieces st ++ [""]) (ref_pieces st ++ [""])
              ({[ "query" ]} ∪ dash_seen st)))
  else if negb qd && rd then
    mret (Continue
      (mkWalk (query_suffix st) (tail (ref_suffix st))
              (query_pieces st ++ [""]) (ref_pieces st ++ [""])
              ({[ "ref" ]} ∪ dash_seen st)))
  else
    mret (Continue
      (mkWalk (tail (query_suffix st)) (tail (ref_suffix st))
              (add_to_last q0 (query_pieces st))
              (add_to_last r0 (ref_pieces st))
              (dash_seen st))).

(** One pass through the body of [while query_suffix and ref_suffix];
    [query] and [ref] are the canonicalized strings. *)
Definition walk_body (query ref : string) (st : walk_state) : result step :=
  q0 ← head (query_suffix st);
  r0 ← head (ref_suffix st);
  let qs := bool_decide (q0 = space) in
  let rs := bool_decide (r0 = space) in
  if qs && rs then
    dash_step
      (mkWalk (tail (query_suffix st)) (tail (ref_suffix st))
              (query_pieces st ++ [""]) (ref_pieces st ++ [""])
              (dash_seen st))
  else if (qs && negb rs) || (rs && negb qs) then
    mret (Return (mkMatch query ref None (Some true) None None))
  else dash_step st.

(** The loop guard. *)
Definition walk_guard (st : walk_state) : bool :=
  negb (bool_decide (query_suffix st = "")) && negb (bool_decide (ref_suffix st = "")).

(** The loop, bounded by [fuel] passes; [walk_fuel] shows that the bound
    used by [generate_match] is never reached. *)
Fixpoint walk (query ref : string) (fuel : nat) (st : walk_state) : result step :=
  match fuel with
  | 0 => mret (Continue st)
  | S fuel' =>
      if walk_guard st then
        r ← walk_body query ref st;
        match r with
        | Continue st' => walk query ref fuel' st'
        | Return m => mret (Return m)
        end
      else mret (Continue st)
  end.

Section generate_match.
(** The functions of [gilda.process]. *)
Context (normalize replace_dashes replace_whitespace : string → string).
Context (get_capitalization_pattern : string → bool → CapPattern).

(** The loop over the piece pairs; [first], [exact] and [combinations]
    are its variables. *)
Fixpoint compare_pieces (beginning_of_sentence : bool) (first exact : bool)
    (combinations : list combo) (pairs : list (string * string))
    : bool * list combo :=
  match pairs with
  | [] => (exact, combinations)
  | (qp, rp) :: pairs' =>
      let first_bos := first && beginning_of_sentence in
      if bool_decide (qp = rp) && negb first_bos then
        compare_pieces beginning_of_sentence false true combinations pairs'
      else
        let qcp := get_capitalization_pattern qp first_bos in
        let rcp := get_capitalization_pattern rp false in
        if bool_decide (qcp = rcp) && bool_decide (qp = rp) then
          compare_pieces beginning_of_sentence false true combinations pairs'
        else
          compare_pieces beginning_of_sentence false exact
            (combinations ++ [(qcp, rcp)]) pairs'
  end.

Definition generate_match (query ref : string) (beginning_of_sentence : bool)
    : result Match :=
  if bool_decide (normalize query ≠ normalize ref) then Raise ValueError
  else
    let query := replace_dashes (replace_whitespace query) in
    let ref := replace_dashes (replace_whitespace ref) in
    if negb beginning_of_sentence && bool_decide (query = ref) then
      mret (mkMatch query ref (Some true) None None None)
    else
      r ← walk query ref (String.length query + String.length ref)
            (mkWalk query ref [""] [""] ∅);
      match r with
      | Return m => mret m
      | Continue st =>
          let '(exact, combinations) :=
            compare_pieces beginning_of_sentence true false []
              (zip (query_pieces st) (ref_pieces st)) in
          mret (mkMatch query ref (Some exact) None
                        (Some (dash_seen st)) (Some combinations))
      end.
End generate_match.

(** *** [score_string_match] *)

(** What [getattr(match, name)] finds on a [Match]. *)
Inductive attribute : Type :=
  | IntMethod (f : Match → result Z)
  | OtherAttribute.

(** The attributes of a [Match]: its six fields and the methods of the class. *)
Definition Match_attributes : list (string * attribute) :=
  [ ("query", OtherAttribute);
    ("ref", OtherAttribute);
    ("exact", OtherAttribute);
    ("space_mismatch", OtherAttribute);
    ("dash_mismatches", OtherAttribute);
    ("cap_combos", OtherAttribute);
    ("__init__", OtherAttribute);
    ("__str__", OtherAttribute);
    ("_query_cases", OtherAttribute);
    ("_ref_cases", OtherAttribute);
    ("score_short_abbr", IntMethod score_short_abbr);
    ("score_mixed", IntMethod score_mixed);
    ("score_exact", IntMethod score_exact);
    ("score_acic", IntMethod score_acic);
    ("score_combo", IntMethod score_combo);
    ("score_dash", IntMethod score_dash) ].

(** [match.name] *)
Definition getattr (name : string) : result attribute :=
  match list_find (λ a, a.1 = name) Match_attributes with
  | Some (_, (_, a)) => Ok a
  | None => Raise AttributeError
  end.

(** [fun()] for an attribute [fun] of [match], used as a number. *)
Definition call (a : attribute) (m : Match) : result Z :=
  match a with
  | IntMethod f => f m
  | OtherAttribute => Raise TypeError
  end.

(** The loop of [score_string_match] over [terms]. *)
Fixpoint score_terms (m : Match) (terms : list (attribute * Z)) (score norm : Z)
    : result (Z * Z) :=
  match terms with
  | [] => mret (score, norm)
  | (fn, coeff) :: terms' =>
      v ← call fn m;
      score_terms m terms' (coeff * score + v)%Z (norm * coeff)%Z
  end.

(** [score /= (norm - 1)] *)
Definition normalized (score norm : Z) : Q := (inject_Z score / inject_Z (norm - 1))%Q.

(** The names and coefficients listed in [terms]. *)
Definition term_names : list (string * Z) :=
  [ ("get_short_abbr", 2%Z);
    ("get_mixed", 3%Z);
    ("get_exact", 2%Z);
    ("get_acic", 3%Z);
    ("get_combo", 5%Z);
    ("get_dash", 3%Z) ].

(** The scoring loop over an attribute list given by name. *)
Definition score_by_names (names : list (string * Z)) (m : Match) : result Q :=
  terms ← mapM (λ nc : string * Z, fn ← getattr nc.1; mret (fn, nc.2)) names;
  sn ← score_terms m terms 0%Z 1%Z;
  mret (normalized sn.1 sn.2).

Definition score_string_match (m : Match) : result Q :=
  score_by_names term_names m.

End Scorer.

(** ** gilda/ner.py *)

Module Ner.
Import Py.

(** [gilda.ScoredMatch], of which this module reads
    [term.get_curie()] only. *)
Record ScoredMatch : Type := mkScoredMatch {
  term_curie : string
}.

(** [class Annotation]; [end_] is its [end]. *)
Record Annotation : Type := mkAnnotation {
  text : string;
  matches : list ScoredMatch;
  start : nat;
  end_ : nat
}.

(** What [annotate] uses of a [gilda.grounder.Grounder]: the prefix index
    from a normalized word to the lengths of the entries that start with it,
    and [ground(txt, context=, organisms=, namespaces=)]. *)
Record Grounder : Type := mkGrounder {
  prefix_index : gmap string (gset positive);
  ground : string → string → option (list string) → option (list string)
           → list ScoredMatch
}.

(** What the scan does, in order: a call of [grounder.ground] for the span of
    [span] words at word [idx] of sentence [sent] with its result, or an
    annotation appended for that span. *)
Inductive event : Type :=
  | Grounded (sent idx : nat) (span : positive) (txt_span : string)
             (res : list ScoredMatch)
  | Appended (sent idx : nat) (span : positive) (a : Annotation).

Definition appended (e : event) : option Annotation :=
  match e with
  | Appended _ _ _ a => Some a
  | Grounded _ _ _ _ _ => None
  end.

(** The loop that fills [word_coords], whose last element is [coord]. *)
Fixpoint word_coords_from (coord : nat) (raw_words : list string) : list nat :=
  coord ::
  match raw_words with
  | [] => []
  | word :: raw_words' =>
      word_coords_from (coord + String.length word + 1) raw_words'
  end.

(** The order of [sorted(..., reverse=True)]. *)
Definition descending (a b : positive) : Prop := (b ≤ a)%positive.

#[global] Instance descending_dec : RelDecision descending :=
  λ a b, decide (b ≤ a)%positive.

(** [sorted(spans, reverse=True)] *)
Definition sorted_reverse (spans : gset positive) : list positive :=
  merge_sort descending (elements spans).

Section annotate.
Context (normalize : string → string).
Context (stop_words : gset string).
Context (grounder : Grounder).
Context (sent_split_fun : string → list string).
Context (organisms namespaces : option (list string)).
Context (context_text : option string).

Section sentence.
(** The input text, the number of the sentence and its word lists. *)
Context (text_arg : string) (sent : nat).
Context (raw_words : list string) (word_coords : list nat) (n_words : nat).

(** [for span in sorted(applicable_spans, reverse=True)]: the events and
    the span that matched, if any. *)
Fixpoint try_spans (idx : nat) (spans : list positive)
    : list event * option positive :=
  match spans with
  | [] => ([], None)
  | span :: spans' =>
      let n := Pos.to_nat span in
      let txt_span := join " " (slice raw_words idx (idx + n)) in
      let context := default text_arg context_text in
      let matches := ground grounder txt_span context organisms namespaces in
      match matches with
      | _ :: _ =>
          let start_coord := nth idx word_coords 0 in
          let end_coord :=
            nth (idx + n - 1) word_coords 0
            + String.length (nth (idx + n - 1) raw_words "") in
          let raw_span := join " " (slice raw_words idx (idx + n)) in
          ([ Grounded sent idx span txt_span matches;
             Appended sent idx span
               (mkAnnotation raw_span matches start_coord end_coord) ],
           Some span)
      | [] =>
          let '(evs, found) := try_spans idx spans' in
          (Grounded sent idx span txt_span [] :: evs, found)
      end
  end.

(** [for idx, word in enumerate(words)], from word [idx] on. *)
Fixpoint scan (idx skip_until : nat) (words : list string) : list event :=
  match words with
  | [] => []
  | word :: words' =>
      if bool_decide (idx < skip_until) then scan (S idx) skip_until words'
      else if bool_decide (word ∈ stop_words) then scan (S idx) skip_until words'
      else
        let spans := default ∅ (prefix_index grounder !! word) in
        if bool_decide (spans = ∅) then scan (S idx) skip_until words'
        else
          let applicable_spans :=
            filter (λ span, idx + Pos.to_nat span ≤ n_words) spans in
          let '(evs, found) := try_spans idx (sorted_reverse applicable_spans) in
          let skip_until :=
            match found with
            | Some span => idx + Pos.to_nat span
            | None => skip_until
            end in
          evs ++ scan (S idx) skip_until words'
  end.
End sentence.

(** [raw_words] of a sentence. *)
Definition raw_words_of (sentence : string) : list string :=
  split (rstrip period sentence).

(** [for sentence in sentences], from sentence number [sent] on. *)
Fixpoint scan_sentences (text_arg : string) (sent text_coord : nat)
    (sentences : list string) : list event :=
  match sentences with
  | [] => []
  | sentence :: sentences' =>
      let raw_words := raw_words_of sentence in
      let word_coords := word_coords_from text_coord raw_words in
      let words := normalize <$> raw_words in
      scan text_arg sent raw_words word_coords (length words) 0 0 words
      ++ scan_sentences text_arg (S sent)
           (text_coord + String.length sentence + 1) sentences'
  end.

(** Everything [annotate] does, in order. *)
Definition annotate_trace (text_arg : string) : list event :=
  scan_sentences text_arg 0 0 (sent_split_fun text_arg).

Definition annotate (text_arg : string) : list Annotation :=
  omap appended (annotate_trace text_arg).
End annotate.

(** *** [get_brat] *)

(** [annotation.matches[0]] *)
Definition first_match (a : Annotation) : result ScoredMatch :=
  match matches a with
  | [] => Raise IndexError
  | m :: _ => Ok m
  end.

(** The first row written for an annotation. *)
Definition entity_row (entity_type : string) (include_text : bool) (idx : Z)
    (a : Annotation) : string :=
  "T" +:+ str_of_Z idx +:+ chr tab +:+ entity_type +:+ " "
  +:+ str_of_nat (start a) +:+ " " +:+ str_of_nat (end_ a)
  +:+ (if include_text then chr tab +:+ text a else "").

(** The second row written for an annotation with top match [m]. *)
Definition note_row (entity_type : string) (idx : Z) (m : ScoredMatch) : string :=
  let curie := term_curie m in
  let curie :=
    if bool_decide (entity_type ≠ "Entity")
    then curie +:+ "; Reading system: " +:+ entity_type
    else curie in
  "#" +:+ str_of_Z idx +:+ chr tab +:+ "AnnotatorNotes T" +:+ str_of_Z idx
  +:+ chr tab +:+ curie.

(** [for idx, annotation in enumerate(annotations, idx)]: the rows appended
    to [brat]. *)
Fixpoint brat_rows (entity_type : string) (include_text : bool) (idx : Z)
    (annotations : list Annotation) : result (list string) :=
  match annotations with
  | [] => mret []
  | a :: annotations' =>
      m ← first_match a;
      rows ← brat_rows entity_type include_text (idx + 1)%Z annotations';
      mret (entity_row entity_type include_text idx a
            :: note_row entity_type idx m :: rows)
  end.

Definition get_brat (annotations : list Annotation) (entity_type : string)
    (ix_offset : Z) (include_text : bool) : result string :=
  let ix_offset := Z.max 1 ix_offset in
  brat ← brat_rows entity_type include_text ix_offset annotations;
  mret (join (chr newline) brat +:+ chr newline).

End Ner.

(** ** An instance of gilda/process.py

    The four functions imported from [gilda.process] are parameters of
    [generate_match] and [annotate]. The instance below is used to run them
    on concrete inputs. *)

Module Process.
Import Py Scorer.

Fixpoint map_chars (f : ascii → ascii) (s : string) : string :=
  match s with
  | "" => ""
  | String c s' => String (f c) (map_chars f s')
  end.

Fixpoint filter_chars (f : ascii → bool) (s : string) : string :=
  match s with
  | "" => ""
  | String c s' => if f c then String c (filter_chars f s') else filter_chars f s'
  end.

Fixpoint all_chars (f : ascii → bool) (s : string) : bool :=
  match s with
  | "" => true
  | String c s' => f c && all_chars f s'
  end.

Definition isupper (c : ascii) : bool :=
  let n := nat_of_ascii c in (65 <=? n) && (n <=? 90).

Definition islower (c : ascii) : bool :=
  let n := nat_of_ascii c in (97 <=? n) && (n <=? 122).

Definition lower (c : ascii) : ascii :=
  if isupper c then ascii_of_nat (nat_of_ascii c + 32) else c.

(** Modelled from the spec: [replace_whitespace] of gilda/process.py, which
    collapses any run of whitespace to a single space. *)
Fixpoint replace_whitespace_go (in_run : bool) (s : string) : string :=
  match s with
  | "" => ""
  | String c s' =>
      if isspace c
      then (if in_run then replace_whitespace_go true s'
            else String space (replace_whitespace_go true s'))
      else String c (replace_whitespace_go false s')
  end.

Definition replace_whitespace (s : string) : string := replace_whitespace_go false s.

(** Modelled from the spec: [replace_dashes] of gilda/process.py, which maps
    every dash-like character to the one canonical dash; the hyphen is the
    only dash of the ASCII range. *)
Definition replace_dashes (s : string) : string :=
  map_chars (λ c, if bool_decide (c = dash) then dash else c) s.

(** Modelled from the spec: [normalize] of gilda/process.py, a normalization
    that is insensitive to case, to dashes and to the amount of whitespace. *)
Definition normalize (s : string) : string :=
  map_chars lower
    (filter_chars (λ c, negb (bool_decide (c = dash)))
       (replace_dashes (replace_whitespace s))).

(** Modelled from the spec: [get_capitalization_pattern] of gilda/process.py,
    which labels a piece with one of the capitalization patterns. *)
Definition get_capitalization_pattern (word : string) (beginning_of_sentence : bool)
    : CapPattern :=
  match word with
  | "" => mixed
  | String c rest =>
      if beginning_of_sentence && isupper c && all_chars islower rest
      then sentence_initial_cap
      else if isupper c && bool_decide (rest = "") then single_cap_letter
      else if all_chars isupper word then all_caps
      else if all_chars islower word then all_lower
      else if isupper c && all_chars islower rest then initial_cap
      else mixed
  end.

Definition generate_match : string → string → bool → result Match :=
  Scorer.generate_match normalize replace_dashes replace_whitespace
    get_capitalization_pattern.

End Process.

(** * Properties of the Python string operations *)

Module PyFacts.
Import Py.

Lemma string_app_nil_r s : s +:+ "" = s.
Proof. induction s; simpl; congruence. Qed.

Lemma string_app_assoc a b c : (a +:+ b) +:+ c = a +:+ b +:+ c.
Proof. induction a; simpl; congruence. Qed.

Lemma string_length_app a b :
  String.length (a +:+ b) = String.length a + String.length b.
Proof. induction a; simpl; congruence. Qed.

(** [c * n] *)
Fixpoint replicate_char (n : nat) (c : ascii) : string :=
  match n with
  | 0 => ""
  | S n' => String c (replicate_char n' c)
  end.

(** [s] ends with [c]. *)
Fixpoint ends_with (c : ascii) (s : string) : bool :=
  match s with
  | "" => false
  | String a "" => Ascii.eqb a c
  | String _ s' => ends_with c s'
  end.

(** [rstrip] removes a run of [c] from the end. *)
Lemma rstrip_run c s : ∃ k, s = rstrip c s +:+ replicate_char k c.
Proof.
  induction s as [|a s [k IH]]; [by exists 0|]. simpl.
  destruct (rstrip c s) as [|x r] eqn:Hr.
  - destruct (Ascii.eqb a c) eqn:Hac.
    + apply Ascii.eqb_eq in Hac as ->. exists (S k). simpl in *. congruence.
    + exists k. simpl in *. congruence.
  - exists k. simpl in *. congruence.
Qed.

(** It removes the whole run: what is left does not end with [c]. *)
Lemma rstrip_maximal c s : ends_with c (rstrip c s) = false.
Proof.
  induction s as [|a s IH]; [done|]. simpl.
  destruct (rstrip c s) as [|x r] eqn:Hr.
  - destruct (Ascii.eqb a c) eqn:Hac; [done|]. simpl. done.
  - simpl in *. done.
Qed.

Lemma rstrip_length c s : String.length (rstrip c s) ≤ String.length s.
Proof.
  destruct (rstrip_run c s) as [k Hk]. rewrite Hk at 2.
  rewrite string_length_app. lia.
Qed.

(** The room a word list takes when every word is followed by one
    character. *)
Definition total_width (ws : list string) : nat :=
  sum_list_with (λ w, String.length w + 1) ws.

Lemma total_width_app ws1 ws2 :
  total_width (ws1 ++ ws2) = total_width ws1 + total_width ws2.
Proof. apply sum_list_with_app. Qed.

Lemma total_width_take_le ws i : total_width (take i ws) ≤ total_width ws.
Proof.
  rewrite <-(take_drop i ws) at 2. rewrite total_width_app. lia.
Qed.

Lemma total_width_take_mono ws i j :
  i ≤ j → total_width (take i ws) ≤ total_width (take j ws).
Proof.
  intros Hij. replace (take i ws) with (take i (take j ws)).
  - apply total_width_take_le.
  - rewrite take_take. f_equal. lia.
Qed.

Lemma total_width_take_S ws i w :
  ws !! i = Some w →
  total_width (take (S i) ws) = total_width (take i ws) + String.length w + 1.
Proof.
  intros Hw. erewrite take_S_r by done. rewrite total_width_app.
  unfold total_width at 2. simpl. lia.
Qed.

Lemma split_go_width cur s :
  total_width (split_go cur s) ≤ String.length cur + String.length s + 1.
Proof.
  revert cur. induction s as [|c s IH]; intros cur; simpl.
  - case_decide; unfold total_width; simpl; lia.
  - destruct (isspace c).
    + case_decide.
      * specialize (IH ""). simpl in IH. lia.
      * specialize (IH ""). unfold total_width in *. simpl in *. lia.
    + specialize (IH (cur +:+ chr c)).
      rewrite string_length_app in IH. simpl in IH. lia.
Qed.

(** The words of a string and one separator after each fit in the string
    and one more character. *)
Lemma split_width s : total_width (split s) ≤ String.length s + 1.
Proof. apply (split_go_width "" s). Qed.

(** [s] has a whitespace character. *)
Fixpoint has_space (s : string) : bool :=
  match s with
  | "" => false
  | String c s' => isspace c || has_space s'
  end.

Lemma has_space_app a b : has_space (a +:+ b) = has_space a || has_space b.
Proof. induction a; simpl; [done|]. rewrite IHa. by rewrite orb_assoc. Qed.

Lemma split_go_no_space cur s :
  has_space cur = false → Forall (λ w, has_space w = false) (split_go cur s).
Proof.
  revert cur. induction s as [|c s IH]; intros cur Hcur; simpl.
  - case_decide; auto.
  - destruct (isspace c) eqn:Hc.
    + case_decide; [by apply IH|]. constructor; [done|by apply IH].
    + apply IH. rewrite has_space_app, Hcur. simpl. by rewrite Hc.
Qed.

(** The words of a string have no whitespace. *)
Lemma split_no_space s : Forall (λ w, has_space w = false) (split s).
Proof. by apply split_go_no_space. Qed.

(** ** Joined words *)

Lemma join_cons sep x y l : join sep (x :: y :: l) = x +:+ sep +:+ join sep (y :: l).
Proof. done. Qed.









(** ** The first word of a span text *)

(** The part of [s] before its first space. *)
Fixpoint first_word (s : string) : string :=
  match s with
  | "" => ""
  | String c s' => if Ascii.eqb c space then "" else String c (first_word s')
  end.

Lemma first_word_app w rest :
  has_space w = false → first_word (w +:+ " " +:+ rest) = w.
Proof.
  induction w as [|c w IH]; [done|]. simpl.
  intros [Hc Hw]%orb_false_iff.
  destruct (Ascii.eqb c space) eqn:Heq.
  - apply Ascii.eqb_eq in Heq as ->. done.
  - f_equal. by apply IH.
Qed.

Lemma first_word_id w : has_space w = false → first_word w = w.
Proof.
  intros Hw. rewrite <-(first_word_app w "") at 2 by done.
  induction w as [|c w IH]; [done|]. simpl in *.
  apply orb_false_iff in Hw as [Hc Hw].
  destruct (Ascii.eqb c space); [done|]. f_equal. by apply IH.
Qed.

Lemma first_word_join w l :
  has_space w = false → first_word (join " " (w :: l)) = w.
Proof.
  intros Hw. destruct l as [|y l].
  - by apply first_word_id.
  - rewrite join_cons. by apply first_word_app.
Qed.

End PyFacts.

(** * Properties of gilda/scorer.py *)

Module ScorerFacts.
Import Py Scorer.

(** ** The alignment loop *)

(** The number of characters left to read, which bounds the passes. *)
Definition remaining (st : walk_state) : nat :=
  String.length (query_suffix st) + String.length (ref_suffix st).

Lemma length_tail s : s ≠ "" → String.length s = S (String.length (tail s)).
Proof. by destruct s. Qed.

Lemma length_tail_le s : String.length (tail s) ≤ String.length s.
Proof. destruct s; simpl; lia. Qed.

Lemma head_Ok s c : head s = Ok c → s ≠ "".
Proof. by destruct s. Qed.

Lemma walk_guard_true st :
  walk_guard st = true → query_suffix st ≠ "" ∧ ref_suffix st ≠ "".
Proof.
  unfold walk_guard. intros [H1 H2]%andb_true_iff.
  apply negb_true_iff, bool_decide_eq_false in H1, H2. done.
Qed.

Lemma walk_guard_false st :
  walk_guard st = false → query_suffix st = "" ∨ ref_suffix st = "".
Proof.
  unfold walk_guard. intros [H|H]%andb_false_iff;
    apply negb_false_iff, bool_decide_eq_true in H; auto.
Qed.

(** The dash step reads at least one character. *)
Lemma dash_step_remaining st st' :
  dash_step st = Ok (Continue st') → remaining st' < remaining st.
Proof.
  unfold dash_step, remaining.
  destruct (head (query_suffix st)) as [q0|] eqn:Hq; [|done].
  destruct (head (ref_suffix st)) as [r0|] eqn:Hr; [|done].
  apply head_Ok, length_tail in Hq, Hr. simpl.
  repeat case_match; intros [= <-]; simpl; lia.
Qed.

(** Every pass that goes on has read at least one character. *)
Lemma walk_body_remaining query ref st st' :
  walk_body query ref st = Ok (Continue st') → remaining st' < remaining st.
Proof.
  unfold walk_body.
  destruct (head (query_suffix st)) as [q0|] eqn:Hq; [|done].
  destruct (head (ref_suffix st)) as [r0|] eqn:Hr; [|done].
  simpl. repeat case_match; try done.
  - intros Hd%dash_step_remaining. revert Hd. unfold remaining. simpl.
    pose proof (length_tail_le (query_suffix st)).
    pose proof (length_tail_le (ref_suffix st)). lia.
  - apply dash_step_remaining.
Qed.

(** The loop stops by itself: any bound of at least [remaining st] passes
    gives the same result, so the bound of [generate_match] is never the
    reason why [walk] returns. *)
Lemma walk_fuel query ref fuel1 fuel2 st :
  remaining st ≤ fuel1 → remaining st ≤ fuel2 →
  walk query ref fuel1 st = walk query ref fuel2 st.
Proof.
  revert fuel2 st. induction fuel1 as [|fuel1 IH]; intros fuel2 st H1 H2.
  - destruct fuel2 as [|fuel2]; [done|]. simpl.
    destruct (walk_guard st) eqn:Hg; [|done].
    apply walk_guard_true in Hg as [Hq%length_tail _].
    unfold remaining in H1. lia.
  - destruct fuel2 as [|fuel2]; simpl.
    + destruct (walk_guard st) eqn:Hg; [|done].
      apply walk_guard_true in Hg as [Hq%length_tail _].
      unfold remaining in H2. lia.
    + destruct (walk_guard st); [|done].
      destruct (walk_body query ref st) as [[st'|m]|e] eqn:Hb; simpl; try done.
      apply walk_body_remaining in Hb. apply IH; lia.
Qed.

(** With a bound of at least [remaining st], [walk] satisfies the equation
    of the [while] loop. *)
Lemma walk_unfold query ref fuel st :
  remaining st ≤ fuel →
  walk query ref fuel st =
    if walk_guard st then
      r ← walk_body query ref st;
      match r with
      | Continue st' => walk query ref (remaining st') st'
      | Return m => mret (Return m)
      end
    else mret (Continue st).
Proof.
  intros Hfuel. destruct fuel as [|fuel]; simpl.
  - destruct (walk_guard st) eqn:Hg; [|done].
    apply walk_guard_true in Hg as [Hq%length_tail _].
    unfold remaining in Hfuel. lia.
  - destruct (walk_guard st); [|done].
    destruct (walk_body query ref st) as [[st'|m]|e] eqn:Hb; simpl; try done.
    apply walk_body_remaining in Hb. apply walk_fuel; lia.
Qed.

(** The loop raises nothing but [IndexError]. *)
Lemma dash_step_raises st e : dash_step st = Raise e → e = IndexError.
Proof.
  unfold dash_step.
  destruct (query_suffix st); simpl; [by intros [= <-]|].
  destruct (ref_suffix st); simpl; [by intros [= <-]|].
  repeat case_match; done.
Qed.

Lemma walk_body_raises query ref st e :
  walk_body query ref st = Raise e → e = IndexError.
Proof.
  unfold walk_body.
  destruct (query_suffix st) eqn:Hq; simpl; [by intros [= <-]|].
  destruct (ref_suffix st) eqn:Hr; simpl; [by intros [= <-]|].
  repeat case_match; try done; apply dash_step_raises.
Qed.

Lemma walk_raises query ref fuel st e :
  walk query ref fuel st = Raise e → e = IndexError.
Proof.
  revert st. induction fuel as [|fuel IH]; intros st; simpl; [done|].
  destruct (walk_guard st); [|done].
  destruct (walk_body query ref st) as [[st'|m]|e'] eqn:Hb; simpl.
  - apply IH.
  - done.
  - intros [= <-]. by eapply walk_body_raises.
Qed.

(** ** Where the loop reads past the end of a string *)

(** [s] ends with a space. *)
Fixpoint ends_with_space (s : string) : bool :=
  match s with
  | "" => false
  | String c "" => bool_decide (c = space)
  | String _ s' => ends_with_space s'
  end.

Lemma ends_with_space_tail s :
  ends_with_space s = false → ends_with_space (tail s) = false.
Proof. destruct s as [|c [|c' s']]; done. Qed.

Lemma space_then_more s :
  ends_with_space s = false → head s = Ok space → tail s ≠ "".
Proof.
  destruct s as [|c [|c' s']]; simpl; try done.
  intros Hc [= ->]. by rewrite bool_decide_eq_true_2 in Hc.
Qed.

(** Neither string that is left to read ends with a space. *)
Definition no_trailing_space (st : walk_state) : Prop :=
  ends_with_space (query_suffix st) = false
  ∧ ends_with_space (ref_suffix st) = false.

Lemma dash_step_no_trailing_space st :
  query_suffix st ≠ "" → ref_suffix st ≠ "" → no_trailing_space st →
  ∃ st', dash_step st = Ok (Continue st') ∧ no_trailing_space st'.
Proof.
  intros Hq Hr [Hsq Hsr]. unfold dash_step.
  destruct (query_suffix st) as [|q0 qs] eqn:Eq; [done|].
  destruct (ref_suffix st) as [|r0 rs] eqn:Er; [done|].
  apply ends_with_space_tail in Hsq as Htq, Hsr as Htr.
  simpl in *. unfold no_trailing_space.
  repeat case_match; eexists; (split; [done|]); simpl; rewrite ?Eq, ?Er; done.
Qed.

Lemma walk_body_no_trailing_space query ref st :
  walk_guard st = true → no_trailing_space st →
  ∃ r, walk_body query ref st = Ok r
       ∧ ∀ st', r = Continue st' → no_trailing_space st'.
Proof.
  intros [Hq Hr]%walk_guard_true [Hsq Hsr]. unfold walk_body.
  destruct (query_suffix st) as [|q0 qs] eqn:Eq; [done|].
  destruct (ref_suffix st) as [|r0 rs] eqn:Er; [done|].
  simpl. destruct (bool_decide (q0 = space)) eqn:Hq0;
    destruct (bool_decide (r0 = space)) eqn:Hr0; simpl.
  - apply bool_decide_eq_true in Hq0 as ->, Hr0 as ->.
    destruct (dash_step_no_trailing_space
      (mkWalk qs rs (query_pieces st ++ [""]) (ref_pieces st ++ [""])
              (dash_seen st))) as (st' & -> & Hst').
    + by apply (space_then_more (String space qs)).
    + by apply (space_then_more (String space rs)).
    + split; simpl; [by apply (ends_with_space_tail (String space qs))
                    |by apply (ends_with_space_tail (String space rs))].
    + eexists; split; [done|]. by intros ? [= <-].
  - eexists; split; [done|]. done.
  - eexists; split; [done|]. done.
  - destruct (dash_step_no_trailing_space st) as (st' & Hd & Hst').
    + by rewrite Eq.
    + by rewrite Er.
    + split; by rewrite ?Eq, ?Er.
    + unfold dash_step in Hd. rewrite Eq, Er in Hd. simpl in Hd.
      unfold dash_step. rewrite Eq, Er. simpl. rewrite Hd.
      eexists; split; [done|]. by intros ? [= <-].
Qed.

Lemma walk_no_trailing_space query ref fuel st :
  no_trailing_space st → ∃ r, walk query ref fuel st = Ok r.
Proof.
  revert st. induction fuel as [|fuel IH]; intros st Hst; simpl; [by eexists|].
  destruct (walk_guard st) eqn:Hg; [|by eexists].
  destruct (walk_body_no_trailing_space query ref st Hg Hst) as (r & -> & Hr).
  simpl. destruct r as [st'|m]; [|by eexists].
  apply IH. by apply Hr.
Qed.

Section generate_match_facts.
Context (normalize replace_dashes replace_whitespace : string → string).
Context (get_capitalization_pattern : string → bool → CapPattern).

Abbreviation generate_match :=
  (generate_match normalize replace_dashes replace_whitespace
     get_capitalization_pattern).

(** When neither canonicalized string ends with a space, two strings with
    the same normal form are aligned: a [Match] is returned. *)
Lemma generate_match_returns query ref bos :
  normalize query = normalize ref →
  ends_with_space (replace_dashes (replace_whitespace query)) = false →
  ends_with_space (replace_dashes (replace_whitespace ref)) = false →
  ∃ m, generate_match query ref bos = Ok m.
Proof.
  intros Hn Hq Hr. unfold Scorer.generate_match.
  rewrite bool_decide_eq_false_2 by (by intros []).
  case_match; [by eexists|].
  edestruct walk_no_trailing_space as [r ->]; [by split|].
  simpl. destruct r; [|by eexists].
  case_match. by eexists.
Qed.

(** [ValueError] is raised exactly when the normal forms differ. *)
Lemma generate_match_ValueError_iff query ref bos :
  generate_match query ref bos = Raise ValueError ↔ normalize query ≠ normalize ref.
Proof.
  unfold Scorer.generate_match. case_bool_decide as Hn; [done|].
  split; [|done]. intros Hv. exfalso.
  case_match; [done|].
  match type of Hv with
  | context [walk ?q ?r ?f ?st] => destruct (walk q r f st) as [[st'|m]|e] eqn:Hw
  end; simpl in Hv.
  - by case_match.
  - done.
  - apply walk_raises in Hw. congruence.
Qed.

(** C6 (the code breaks the claim). Two strings with the same normal form
    whose canonical forms are "A " and "a " are not aligned: after the two
    trailing spaces are read together, the loop body reads the first
    character of the query string left, which is empty, and [IndexError]
    is raised. *)
Theorem generate_match_index_error query ref bos :
  normalize query = normalize ref →
  replace_dashes (replace_whitespace query) = "A " →
  replace_dashes (replace_whitespace ref) = "a " →
  generate_match query ref bos = Raise IndexError.
Proof.
  intros Hn Hq Hr. unfold Scorer.generate_match.
  rewrite bool_decide_eq_false_2 by (by intros []).
  rewrite Hq, Hr. by destruct bos.
Qed.
End generate_match_facts.

Lemma generate_match_index_error_witness :
  Process.generate_match "A " "a " false = Raise IndexError.
Proof.
  apply (generate_match_index_error Process.normalize Process.replace_dashes
           Process.replace_whitespace Process.get_capitalization_pattern
           "A " "a " false); reflexivity.
Defined.

(** C8 (the code breaks the claim). [ValueError] is raised if and only if the
    normal forms differ, but two strings with the same normal form need not
    give a [Match]: "x y " and "X y " at the beginning of a sentence give
    [IndexError]. *)
Theorem generate_match_consistency_error :
  (∀ normalize replace_dashes replace_whitespace get_capitalization_pattern
     query ref bos,
     generate_match normalize replace_dashes replace_whitespace
       get_capitalization_pattern query ref bos = Raise ValueError
     ↔ normalize query ≠ normalize ref)
  ∧ Process.normalize "x y " = Process.normalize "X y "
  ∧ Process.generate_match "x y " "X y " true = Raise IndexError.
Proof.
  split; [|split].
  - intros. apply generate_match_ValueError_iff.
  - reflexivity.
  - reflexivity.
Qed.

(** ** The score *)

(** C1 (the code breaks the claim). [score_string_match] returns no score:
    the first attribute it reads, [match.get_short_abbr], is not an attribute
    of a [Match], so [AttributeError] is raised whatever the match. *)
Theorem score_string_match_raises (m : Match) :
  score_string_match m = Raise AttributeError.
Proof. reflexivity. Qed.

(** The six sub-scores of a match, most significant first. *)
Definition sub_scores (m : Match) : result (list Z) :=
  mapM (λ f : Match → result Z, f m)
    [score_short_abbr; score_mixed; score_exact; score_acic; score_combo;
     score_dash].

(** The lexicographic order on tuples of sub-scores. *)
Fixpoint lex_gt (a b : list Z) : bool :=
  match a, b with
  | x :: a', y :: b' => (y <? x)%Z || ((x =? y)%Z && lex_gt a' b')
  | _, _ => false
  end.

Definition exact_match : Match :=
  mkMatch "MEKK" "MEKK" (Some true) None (Some ∅) (Some []).

Definition case_flip_match : Match :=
  mkMatch "mekk" "MEKK" (Some false) None (Some ∅) (Some [(all_lower, all_caps)]).

(** C5 (the code breaks the claim). The sub-scores of [exact_match] are
    lexicographically greater than those of [case_flip_match], but the two
    matches are not ranked: for both [score_string_match] raises
    [AttributeError]. *)
Theorem score_string_match_no_ranking :
  sub_scores exact_match = Ok [1; 2; 1; 2; 4; 2]%Z
  ∧ sub_scores case_flip_match = Ok [1; 2; 0; 0; 4; 2]%Z
  ∧ lex_gt [1; 2; 1; 2; 4; 2]%Z [1; 2; 0; 0; 4; 2]%Z = true
  ∧ score_string_match exact_match = Raise AttributeError
  ∧ score_string_match case_flip_match = Raise AttributeError.
Proof. repeat split; vm_compute; reflexivity. Qed.

(** ** The composition of the sub-scores

    What [score_string_match] would compute if it read the methods of the
    class under their names, [score_short_abbr] to [score_dash]. *)

#[local] Set Warnings "-clear-no-such-hyp".

(** The patterns on the query side and on the reference side. *)
Definition query_cases (cs : list combo) : gset CapPattern := list_to_set (cs.*1).
Definition ref_cases (cs : list combo) : gset CapPattern := list_to_set (cs.*2).

(** The bonus of a side on which [single_cap_letter] comes with [all_caps]
    or [initial_cap]. *)
Definition letter_bonus (c : gset CapPattern) : Z :=
  if bool_decide (single_cap_letter ∈ c)
     && (bool_decide (all_caps ∈ c) || bool_decide (initial_cap ∈ c))
  then 1%Z else 0%Z.

(** The bonus of the query side for a sentence-initial capital alone or for
    one of [single_cap_letter], [initial_cap] and [all_lower]. *)
Definition sentence_bonus (cs : list combo) : Z :=
  let qc := query_cases cs in
  if (bool_decide (sentence_initial_cap ∈ qc)
      && (bool_decide (size qc = 1)
          && bool_decide (((sentence_initial_cap, all_lower) : combo) ∈ cs)))
     || negb (bool_decide
          (({[ single_cap_letter; initial_cap; all_lower ]} : gset CapPattern) ∩ qc = ∅))
  then 1%Z else 0%Z.

Definition query_combo (cs : list combo) : Z :=
  (4 - Z.of_nat (size (query_cases cs)) + letter_bonus (query_cases cs)
   + sentence_bonus cs)%Z.

Definition ref_combo (cs : list combo) : Z :=
  (4 - Z.of_nat (size (ref_cases cs)) + letter_bonus (ref_cases cs))%Z.

Lemma score_combo_Some m cs :
  cap_combos m = Some cs →
  score_combo m = Ok (Z.max (query_combo cs) (ref_combo cs)).
Proof.
  intros Hcs. unfold score_combo, _query_cases, _ref_cases, combo_in. rewrite Hcs. simpl.
  unfold query_combo, ref_combo, letter_bonus, sentence_bonus, query_cases, ref_cases.
  f_equal. repeat case_match; try lia; congruence.
Qed.

(** The seven patterns. *)
Definition all_labels : gset CapPattern :=
  {[ all_caps; all_lower; mixed; initial_cap; single_cap_letter;
     sentence_initial_cap; sentence_initial ]}.

Lemma size_le (c bound : gset CapPattern) n :
  c ⊆ bound → size bound = n → size c ≤ n.
Proof. intros Hsub <-. by apply subseteq_size. Qed.

Lemma size_ge (c part : gset CapPattern) n :
  part ⊆ c → size part = n → n ≤ size c.
Proof. intros Hsub <-. by apply subseteq_size. Qed.

Lemma letter_bonus_bounds c :
  (0 ≤ letter_bonus c ≤ 1)%Z
  ∧ (letter_bonus c = 1%Z → 2 ≤ size c)
  ∧ (letter_bonus c = 0%Z → size c ≤ 6).
Proof.
  unfold letter_bonus.
  destruct (bool_decide (single_cap_letter ∈ c)) eqn:H1;
  destruct (bool_decide (all_caps ∈ c)) eqn:H2;
  destruct (bool_decide (initial_cap ∈ c)) eqn:H3; simpl;
  repeat match goal with
  | H : bool_decide _ = true |- _ => apply bool_decide_eq_true in H
  | H : bool_decide _ = false |- _ => apply bool_decide_eq_false in H
  end; (split; [lia|]); (split; intros Hb; try done).
  - apply (size_ge _ {[single_cap_letter; all_caps]}); [set_solver|done].
  - apply (size_ge _ {[single_cap_letter; all_caps]}); [set_solver|done].
  - apply (size_ge _ {[single_cap_letter; initial_cap]}); [set_solver|done].
  - apply (size_le _ (all_labels ∖ {[all_caps]})); [|done].
    intros x Hx. unfold all_labels. destruct x; set_solver.
  - apply (size_le _ (all_labels ∖ {[single_cap_letter]})); [|done].
    intros x Hx. unfold all_labels. destruct x; set_solver.
  - apply (size_le _ (all_labels ∖ {[single_cap_letter]})); [|done].
    intros x Hx. unfold all_labels. destruct x; set_solver.
  - apply (size_le _ (all_labels ∖ {[single_cap_letter]})); [|done].
    intros x Hx. unfold all_labels. destruct x; set_solver.
  - apply (size_le _ (all_labels ∖ {[single_cap_letter]})); [|done].
    intros x Hx. unfold all_labels. destruct x; set_solver.
Qed.

Lemma size_labels_le (c : gset CapPattern) : size c ≤ 7.
Proof.
  apply (size_le _ all_labels); [|by vm_compute].
  intros x Hx. unfold all_labels. destruct x; set_solver.
Qed.

Lemma size_pos (c : gset CapPattern) x : x ∈ c → 1 ≤ size c.
Proof. intros Hx. apply (size_ge _ {[x]}); [set_solver|]. apply size_singleton. Qed.

Lemma sentence_bonus_bounds cs :
  (0 ≤ sentence_bonus cs ≤ 1)%Z
  ∧ (sentence_bonus cs = 1%Z → 1 ≤ size (query_cases cs))
  ∧ (sentence_bonus cs = 0%Z → size (query_cases cs) ≤ 4).
Proof.
  unfold sentence_bonus. generalize (query_cases cs). intros qc.
  destruct (decide (({[ single_cap_letter; initial_cap; all_lower ]} : gset CapPattern) ∩ qc = ∅))
    as [Hi|Hi].
  - rewrite (bool_decide_eq_true_2 _ Hi). rewrite orb_false_r.
    assert (size qc ≤ 4) as Hle.
    { apply (size_le _ (all_labels ∖ {[ single_cap_letter; initial_cap; all_lower ]}));
        [|by vm_compute].
      intros x Hx. unfold all_labels. destruct x; set_solver. }
    destruct (bool_decide (sentence_initial_cap ∈ qc)) eqn:Hs; simpl.
    + apply bool_decide_eq_true in Hs. apply size_pos in Hs.
      case_match; (split; [lia|]); split; intros; lia.
    + split; [lia|]. split; intros; lia.
  - rewrite (bool_decide_eq_false_2 _ Hi). rewrite orb_true_r.
    split; [lia|]. split; [|done]. intros _.
    destruct (decide (size qc = 0)) as [Hz|Hz]; [|lia].
    apply size_empty_iff in Hz. set_solver.
Qed.

Lemma query_combo_bounds cs : (-1 ≤ query_combo cs ≤ 4)%Z.
Proof.
  unfold query_combo.
  destruct (letter_bonus_bounds (query_cases cs)) as (Hl & Hl1 & Hl0).
  destruct (sentence_bonus_bounds cs) as (Hs & Hs1 & Hs0).
  pose proof (size_labels_le (query_cases cs)).
  assert (letter_bonus (query_cases cs) = 0 ∨ letter_bonus (query_cases cs) = 1)%Z
    as [H0|H0] by lia;
  assert (sentence_bonus cs = 0 ∨ sentence_bonus cs = 1)%Z as [H1|H1] by lia;
  rewrite H0, H1; try specialize (Hl1 H0); try specialize (Hl0 H0);
  try specialize (Hs1 H1); try specialize (Hs0 H1); lia.
Qed.

Lemma ref_combo_le cs : (ref_combo cs ≤ 4)%Z.
Proof.
  unfold ref_combo.
  destruct (letter_bonus_bounds (ref_cases cs)) as (Hl & Hl1 & Hl0).
  assert (letter_bonus (ref_cases cs) = 0 ∨ letter_bonus (ref_cases cs) = 1)%Z
    as [H0|H0] by lia;
  rewrite H0; try specialize (Hl1 H0); lia.
Qed.

(** The sub-scores as functions of the fields they read. *)
Definition short_abbr_digit (ref : string) (cs : list combo) : Z :=
  if bool_decide (String.length ref ≤ 3)
  then
    if bool_decide (((all_caps, all_lower) : combo) ∈ cs) then 0%Z
    else if bool_decide (((all_lower, all_caps) : combo) ∈ cs) then 0%Z else 1%Z
  else 1%Z.

Definition mixed_digit (cs : list combo) : Z :=
  if bool_decide (((mixed, mixed) : combo) ∈ cs) then 0%Z
  else if bool_decide (mixed ∈ query_cases cs) then 1%Z
  else if bool_decide (mixed ∈ ref_cases cs) then 1%Z else 2%Z.

Definition exact_digit (e : option bool) : Z := if is_True e then 1%Z else 0%Z.

Definition acic_digit (e : option bool) (cs : list combo) : Z :=
  if is_True e && bool_decide (cs = []) then 2%Z
  else if bool_decide ((list_to_set cs : gset combo) = {[ (sentence_initial, all_lower) ]})
  then 2%Z
  else if is_True e
          && bool_decide ((list_to_set cs : gset combo)
                          ⊆ {[ (all_caps, sentence_initial_cap);
                               (sentence_initial_cap, all_caps) ]})
  then 1%Z else 0%Z.

Definition digits (m : Match) (cs : list combo) (d : gset string) : list Z :=
  [ short_abbr_digit (ref m) cs; mixed_digit cs; exact_digit (exact m);
    acic_digit (exact m) cs; Z.max (query_combo cs) (ref_combo cs);
    (2 - Z.of_nat (size d))%Z ].

Lemma sub_scores_Some m cs d :
  cap_combos m = Some cs → dash_mismatches m = Some d →
  sub_scores m = Ok (digits m cs d).
Proof.
  intros Hcs Hd. unfold sub_scores, digits. cbn [mapM].
  rewrite (score_combo_Some m cs Hcs).
  unfold score_short_abbr, score_mixed, score_exact, score_acic, score_dash,
    combo_in, _query_cases, _ref_cases, combo_set, combos_falsy.
  rewrite Hcs, Hd. simpl.
  unfold short_abbr_digit, mixed_digit, exact_digit, acic_digit, query_cases, ref_cases.
  destruct cs as [|c cs]; repeat case_match; simpl in *; try done; try congruence.
Qed.

Lemma sub_scores_Ok m ds :
  sub_scores m = Ok ds →
  ∃ cs d, cap_combos m = Some cs ∧ dash_mismatches m = Some d ∧ ds = digits m cs d.
Proof.
  intros Hs. destruct (cap_combos m) as [cs|] eqn:Hcs; cycle 1.
  { exfalso. revert Hs. unfold sub_scores. cbn [mapM].
    unfold score_short_abbr, score_mixed, combo_in. rewrite Hcs. simpl.
    by case_match. }
  destruct (dash_mismatches m) as [d|] eqn:Hd; cycle 1.
  { exfalso. revert Hs. unfold sub_scores. cbn [mapM].
    unfold score_dash. rewrite Hd. simpl.
    repeat match goal with
    | |- context [?f m ≫= _] => destruct (f m); simpl; try done
    end. }
  exists cs, d. rewrite (sub_scores_Some m cs d Hcs Hd) in Hs. by injection Hs as <-.
Qed.

Lemma query_cases_subseteq (cs : list combo) (S : gset combo) (Q : gset CapPattern) :
  list_to_set cs ⊆ S → (∀ y, y ∈ S → y.1 ∈ Q) → query_cases cs ⊆ Q.
Proof.
  intros Hsub HS x Hx. unfold query_cases in Hx.
  apply elem_of_list_to_set, list_elem_of_fmap in Hx as (y & -> & Hy).
  apply HS, Hsub, elem_of_list_to_set, Hy.
Qed.

Lemma ref_cases_subseteq (cs : list combo) (S : gset combo) (Q : gset CapPattern) :
  list_to_set cs ⊆ S → (∀ y, y ∈ S → y.2 ∈ Q) → ref_cases cs ⊆ Q.
Proof.
  intros Hsub HS x Hx. unfold ref_cases in Hx.
  apply elem_of_list_to_set, list_elem_of_fmap in Hx as (y & -> & Hy).
  apply HS, Hsub, elem_of_list_to_set, Hy.
Qed.

Lemma query_combo_ge cs : (4 - Z.of_nat (size (query_cases cs)) ≤ query_combo cs)%Z.
Proof.
  unfold query_combo.
  destruct (letter_bonus_bounds (query_cases cs)) as (Hl & _).
  destruct (sentence_bonus_bounds cs) as (Hs & _). lia.
Qed.

(** A match with a positive [score_acic] has few patterns on the query side. *)
Lemma acic_combo cs e :
  (1 ≤ acic_digit e cs)%Z → (2 ≤ Z.max (query_combo cs) (ref_combo cs))%Z.
Proof.
  unfold acic_digit. pose proof (query_combo_ge cs) as Hq.
  destruct (is_True e && bool_decide (cs = [])) eqn:H1.
  { apply andb_true_iff in H1 as [_ ->%bool_decide_eq_true]. intros _.
    assert (query_combo [] = 4%Z) as -> by by vm_compute. lia. }
  clear H1. case_bool_decide as H2.
  { intros _. assert (size (query_cases cs) ≤ 1); [|lia].
    apply (size_le _ {[sentence_initial]}); [|by vm_compute].
    apply (query_cases_subseteq cs {[ (sentence_initial, all_lower) ]}).
    - by rewrite H2.
    - intros y ->%elem_of_singleton. set_solver. }
  destruct (is_True e); simpl; [|lia].
  case_bool_decide as H3; [|lia]. intros _.
  assert (size (query_cases cs) ≤ 2); [|lia].
  apply (size_le _ {[all_caps; sentence_initial_cap]}); [|by vm_compute].
  apply (query_cases_subseteq cs _ _ H3).
  intros y Hy. apply elem_of_union in Hy as [Hy|Hy];
    apply elem_of_singleton in Hy; subst; set_solver.
Qed.

(** A match with the highest [score_acic] and the highest [score_combo] has
    the highest [score_short_abbr], [score_mixed] and [score_exact]. *)
Lemma acic_combo_top ref cs e :
  acic_digit e cs = 2%Z → Z.max (query_combo cs) (ref_combo cs) = 4%Z →
  short_abbr_digit ref cs = 1%Z ∧ mixed_digit cs = 2%Z ∧ exact_digit e = 1%Z.
Proof.
  unfold acic_digit.
  destruct (is_True e && bool_decide (cs = [])) eqn:H1.
  { apply andb_true_iff in H1 as [He ->%bool_decide_eq_true]. intros _ _.
    unfold exact_digit. rewrite He. unfold short_abbr_digit.
    split; [by case_bool_decide|]. split; [by vm_compute|done]. }
  clear H1. case_bool_decide as H2; cycle 1.
  { destruct (is_True e); simpl; [case_bool_decide|]; done. }
  intros _ Hmax. exfalso.
  assert (size (query_cases cs) = 1) as Hqs.
  { assert (query_cases cs = {[sentence_initial]}) as ->; [|apply size_singleton].
    apply set_eq. intros x. unfold query_cases.
    rewrite elem_of_list_to_set, list_elem_of_fmap, elem_of_singleton. split.
    - intros (y & -> & Hy).
      assert (y ∈ (list_to_set cs : gset combo)) as Hy' by by apply elem_of_list_to_set.
      rewrite H2 in Hy'. by apply elem_of_singleton in Hy' as ->.
    - intros ->. exists (sentence_initial, all_lower). split; [done|].
      assert ((sentence_initial, all_lower) ∈ (list_to_set cs : gset combo)) as Hin
        by (rewrite H2; set_solver).
      by apply elem_of_list_to_set in Hin. }
  assert (size (ref_cases cs) = 1) as Hrs.
  { assert (ref_cases cs = {[all_lower]}) as ->; [|apply size_singleton].
    apply set_eq. intros x. unfold ref_cases.
    rewrite elem_of_list_to_set, list_elem_of_fmap, elem_of_singleton. split.
    - intros (y & -> & Hy).
      assert (y ∈ (list_to_set cs : gset combo)) as Hy' by by apply elem_of_list_to_set.
      rewrite H2 in Hy'. by apply elem_of_singleton in Hy' as ->.
    - intros ->. exists (sentence_initial, all_lower). split; [done|].
      assert ((sentence_initial, all_lower) ∈ (list_to_set cs : gset combo)) as Hin
        by (rewrite H2; set_solver).
      by apply elem_of_list_to_set in Hin. }
  destruct (letter_bonus_bounds (query_cases cs)) as (Hl & Hl1 & _).
  destruct (letter_bonus_bounds (ref_cases cs)) as (Hr & Hr1 & _).
  assert (sentence_bonus cs = 0%Z) as Hsb.
  { unfold sentence_bonus.
    assert (query_cases cs ⊆ {[sentence_initial]}) as Hsub.
    { apply (query_cases_subseteq cs {[ (sentence_initial, all_lower) ]}); [by rewrite H2|].
      intros y ->%elem_of_singleton. set_solver. }
    rewrite (bool_decide_eq_false_2 (sentence_initial_cap ∈ query_cases cs)) by set_solver.
    rewrite (bool_decide_eq_true_2 (_ ∩ query_cases cs = ∅)) by set_solver. done. }
  unfold query_combo, ref_combo in Hmax. rewrite Hsb, Hqs, Hrs in Hmax.
  assert (letter_bonus (query_cases cs) = 0%Z ∨ letter_bonus (query_cases cs) = 1%Z)
    as [H0|H0] by lia; try specialize (Hl1 H0);
  assert (letter_bonus (ref_cases cs) = 0%Z ∨ letter_bonus (ref_cases cs) = 1%Z)
    as [H0'|H0'] by lia; try specialize (Hr1 H0'); lia.
Qed.

Lemma digit_bounds ref e cs :
  (0 ≤ short_abbr_digit ref cs ≤ 1)%Z ∧ (0 ≤ mixed_digit cs ≤ 2)%Z
  ∧ (0 ≤ exact_digit e ≤ 1)%Z ∧ (0 ≤ acic_digit e cs ≤ 2)%Z.
Proof.
  unfold short_abbr_digit, mixed_digit, exact_digit, acic_digit.
  repeat split; repeat case_match; lia.
Qed.

(** A [dash_mismatches] set as [generate_match] builds it: the sides. *)
Definition sides (d : gset string) : Prop := d ⊆ {[ "query"; "ref" ]}.

Lemma dash_digit_bounds d : sides d → (0 ≤ 2 - Z.of_nat (size d) ≤ 2)%Z.
Proof.
  intros Hd. apply subseteq_size in Hd.
  assert (size ({[ "query"; "ref" ]} : gset string) = 2) as Hs by by vm_compute.
  lia.
Qed.

(** The number whose mixed-radix digits are the sub-scores. *)
Definition mixed_radix (ds : list Z) : Z :=
  match ds with
  | [a; b; c; d; e; f] => (((((a * 3 + b) * 2 + c) * 3 + d) * 5 + e) * 3 + f)%Z
  | _ => 0%Z
  end.

(** The names under which [class Match] defines the sub-scores. *)
Definition method_names : list (string * Z) :=
  [ ("score_short_abbr", 2%Z);
    ("score_mixed", 3%Z);
    ("score_exact", 2%Z);
    ("score_acic", 3%Z);
    ("score_combo", 5%Z);
    ("score_dash", 3%Z) ].

Lemma score_by_method_names m ds :
  sub_scores m = Ok ds →
  score_by_names method_names m = Ok (normalized (mixed_radix ds) 540).
Proof.
  unfold sub_scores, score_by_names. cbn [mapM].
  change (mapM _ method_names)
    with (Ok [ (IntMethod score_short_abbr, 2%Z); (IntMethod score_mixed, 3%Z);
               (IntMethod score_exact, 2%Z); (IntMethod score_acic, 3%Z);
               (IntMethod score_combo, 5%Z); (IntMethod score_dash, 3%Z) ]).
  cbn [mbind result_bind score_terms call].
  destruct (score_short_abbr m) as [a|]; [|done].
  destruct (score_mixed m) as [b|]; [|done].
  destruct (score_exact m) as [c|]; [|done].
  destruct (score_acic m) as [d|]; [|done].
  destruct (score_combo m) as [e|]; [|done].
  destruct (score_dash m) as [f|]; [|done].
  simpl. intros [= <-]. simpl. do 2 f_equal. lia.
Qed.

(** With digits in range, a greater tuple of sub-scores is a greater number. *)
Lemma mixed_radix_dominance m1 m2 cs1 cs2 d1 d2 :
  sides d1 → sides d2 →
  lex_gt (digits m1 cs1 d1) (digits m2 cs2 d2) = true →
  (mixed_radix (digits m2 cs2 d2) < mixed_radix (digits m1 cs1 d1))%Z.
Proof.
  intros Hd1%dash_digit_bounds Hd2%dash_digit_bounds.
  unfold digits, lex_gt, mixed_radix.
  destruct (digit_bounds (ref m1) (exact m1) cs1) as (Ha1 & Hb1 & Hc1 & He1).
  destruct (digit_bounds (ref m2) (exact m2) cs2) as (Ha2 & Hb2 & Hc2 & He2).
  pose proof (acic_combo cs1 (exact m1)) as HA1.
  pose proof (acic_combo_top (ref m2) cs2 (exact m2)) as HB2.
  pose proof (query_combo_bounds cs1) as Hq1. pose proof (ref_combo_le cs1) as Hr1.
  pose proof (query_combo_bounds cs2) as Hq2. pose proof (ref_combo_le cs2) as Hr2.
  rewrite !orb_true_iff, !andb_true_iff, !Z.ltb_lt, !Z.eqb_eq.
  lia.
Qed.

(** Without more than four patterns on the query side, the number is in the
    range of the normalization. *)
Lemma mixed_radix_range m cs d :
  sides d → size (query_cases cs) ≤ 4 →
  (0 ≤ mixed_radix (digits m cs d) ≤ 539)%Z.
Proof.
  intros Hd%dash_digit_bounds Hsize. unfold digits, mixed_radix.
  destruct (digit_bounds (ref m) (exact m) cs) as (Ha & Hb & Hc & He).
  pose proof (query_combo_ge cs) as Hq0.
  pose proof (query_combo_bounds cs) as Hq. pose proof (ref_combo_le cs) as Hr.
  lia.
Qed.

Lemma normalized_lt a b : (a < b)%Z → (normalized a 540 < normalized b 540)%Q.
Proof.
  intros Hab. unfold normalized, Qlt, Qdiv, Qmult, Qinv, inject_Z. simpl. lia.
Qed.

(** Had [score_string_match] read the sub-scores under the names of the
    class, a match with a lexicographically greater tuple of sub-scores
    would have the greater score. *)
Lemma score_by_method_names_dominance m1 m2 ds1 ds2 :
  sub_scores m1 = Ok ds1 → sub_scores m2 = Ok ds2 →
  (∀ d, dash_mismatches m1 = Some d → sides d) →
  (∀ d, dash_mismatches m2 = Some d → sides d) →
  lex_gt ds1 ds2 = true →
  ∃ s1 s2,
    score_by_names method_names m1 = Ok s1
    ∧ score_by_names method_names m2 = Ok s2
    ∧ (s2 < s1)%Q.
Proof.
  intros H1 H2 Hd1 Hd2 Hlex.
  rewrite (score_by_method_names _ _ H1), (score_by_method_names _ _ H2).
  apply sub_scores_Ok in H1 as (cs1 & d1 & _ & Hm1 & ->).
  apply sub_scores_Ok in H2 as (cs2 & d2 & _ & Hm2 & ->).
  eexists _, _. split; [done|]. split; [done|].
  apply normalized_lt, mixed_radix_dominance; auto.
Qed.

(** The match returned for a space on one side only has no sub-scores under
    any names: [cap_combos] is [None], and testing membership in it raises
    [TypeError]. *)
Lemma space_mismatch_no_score query ref :
  sub_scores (mkMatch query ref None (Some true) None None) = Raise TypeError
  ∧ score_by_names method_names (mkMatch query ref None (Some true) None None)
    = Raise TypeError.
Proof.
  unfold sub_scores, score_by_names. cbn [mapM].
  change (mapM _ method_names)
    with (Ok [ (IntMethod score_short_abbr, 2%Z); (IntMethod score_mixed, 3%Z);
               (IntMethod score_exact, 2%Z); (IntMethod score_acic, 3%Z);
               (IntMethod score_combo, 5%Z); (IntMethod score_dash, 3%Z) ]).
  cbn [mbind result_bind score_terms call].
  unfold score_short_abbr, score_mixed, combo_in. simpl.
  by case_bool_decide.
Qed.

End ScorerFacts.

(** * Properties of gilda/ner.py *)

Module NerFacts.
Import Py PyFacts Ner.

Definition ev_sent (e : event) : nat :=
  match e with
  | Grounded sent _ _ _ _ | Appended sent _ _ _ => sent
  end.

Definition ev_idx (e : event) : nat :=
  match e with
  | Grounded _ idx _ _ _ | Appended _ idx _ _ => idx
  end.

(** ** Word coordinates *)

(** The coordinate of word [i] of a sentence that starts at [base]: [base]
    plus the sum of (length + 1) over the words before it. *)
Definition coord (base : nat) (raw_words : list string) (i : nat) : nat :=
  base + total_width (take i raw_words).

Lemma word_coords_nth base raw_words i :
  i ≤ length raw_words →
  nth i (word_coords_from base raw_words) 0 = coord base raw_words i.
Proof.
  revert base i. induction raw_words as [|w ws IH]; intros base i Hi.
  - destruct i; [|simpl in Hi; lia]. unfold coord. simpl. unfold total_width. simpl. lia.
  - destruct i as [|i].
    + unfold coord, total_width. simpl. lia.
    + simpl in *. rewrite IH by lia. unfold coord, total_width. simpl. lia.
Qed.

Lemma word_coords_length base raw_words :
  length (word_coords_from base raw_words) = S (length raw_words).
Proof.
  revert base. induction raw_words as [|w ws IH]; intros base; [done|].
  simpl in *. by rewrite IH.
Qed.

Lemma coord_mono base raw_words i j :
  i ≤ j → coord base raw_words i ≤ coord base raw_words j.
Proof.
  intros Hij. unfold coord. pose proof (total_width_take_mono raw_words i j Hij). lia.
Qed.

Lemma coord_S base raw_words i :
  i < length raw_words →
  coord base raw_words (S i)
  = coord base raw_words i + String.length (nth i raw_words "") + 1.
Proof.
  intros Hi. destruct (lookup_lt_is_Some_2 raw_words i Hi) as [w Hw].
  unfold coord. rewrite (total_width_take_S _ _ _ Hw).
  rewrite (nth_lookup_Some _ _ _ _ Hw). lia.
Qed.

Lemma coord_end base raw_words :
  coord base raw_words (length raw_words) = base + total_width raw_words.
Proof. unfold coord. by rewrite firstn_all. Qed.

(** ** Ordered annotation lists *)

(** The annotations lie between [lo] and [hi], one after the other. *)
Fixpoint ordered_within (lo hi : nat) (anns : list Annotation) : Prop :=
  match anns with
  | [] => lo ≤ hi
  | a :: anns' =>
      lo ≤ start a ∧ start a ≤ end_ a ∧ ordered_within (S (end_ a)) hi anns'
  end.

Lemma ordered_within_weaken lo lo' hi hi' anns :
  lo' ≤ lo → hi ≤ hi' → ordered_within lo hi anns → ordered_within lo' hi' anns.
Proof.
  revert lo lo'. induction anns as [|a anns IH]; intros lo lo' Hlo Hhi; simpl.
  - lia.
  - intros (H1 & H2 & H3). repeat split; [lia|done|]. by eapply IH.
Qed.

Lemma ordered_within_app lo mid hi anns1 anns2 :
  ordered_within lo mid anns1 → ordered_within mid hi anns2 →
  ordered_within lo hi (anns1 ++ anns2).
Proof.
  revert lo. induction anns1 as [|a anns1 IH]; intros lo; simpl.
  - intros Hlo. by apply ordered_within_weaken.
  - intros (H1 & H2 & H3) H. repeat split; [done..|]. by apply IH.
Qed.

Lemma ordered_within_starts lo hi anns :
  ordered_within lo hi anns → Forall (λ a, lo ≤ start a) anns.
Proof.
  revert lo. induction anns as [|a anns IH]; intros lo; simpl; [done|].
  intros (H1 & H2 & H3). constructor; [done|].
  eapply Forall_impl; [by apply IH|]. simpl. intros. lia.
Qed.

Lemma ordered_within_Sorted lo hi anns :
  ordered_within lo hi anns →
  Sorted (λ a b, end_ a ≤ start b) anns
  ∧ StronglySorted (λ a b, start a ≤ start b) anns.
Proof.
  revert lo. induction anns as [|a anns IH]; intros lo; simpl.
  - split; constructor.
  - intros (H1 & H2 & H3). destruct (IH _ H3) as [IH1 IH2].
    apply ordered_within_starts in H3 as Hst. split.
    + constructor; [done|]. destruct anns as [|b anns]; constructor.
      apply Forall_cons in Hst as [Hb _]. lia.
    + constructor; [done|]. eapply Forall_impl; [done|]. simpl. intros. lia.
Qed.

(** ** Candidate spans in descending order *)

#[global] Instance descending_transitive : Transitive descending.
Proof. unfold descending. intros a b c. lia. Qed.

#[global] Instance descending_total : Total descending.
Proof. unfold descending. intros a b. lia. Qed.

Lemma sorted_reverse_elem spans x : x ∈ sorted_reverse spans ↔ x ∈ spans.
Proof. unfold sorted_reverse. rewrite merge_sort_Permutation. apply elem_of_elements. Qed.

Lemma sorted_reverse_NoDup spans : NoDup (sorted_reverse spans).
Proof. unfold sorted_reverse. rewrite merge_sort_Permutation. apply NoDup_elements. Qed.

Lemma sorted_reverse_sorted spans : StronglySorted descending (sorted_reverse spans).
Proof. apply StronglySorted_merge_sort; apply _. Qed.

(** Before a candidate come exactly the longer candidates. *)
Lemma sorted_reverse_before spans l1 x l2 y :
  sorted_reverse spans = l1 ++ x :: l2 →
  y ∈ l1 ↔ y ∈ spans ∧ (x < y)%positive.
Proof.
  intros Hl. pose proof (sorted_reverse_NoDup spans) as Hnd.
  pose proof (sorted_reverse_sorted spans) as Hs. rewrite Hl in Hnd, Hs.
  split.
  - intros Hy. split.
    + apply sorted_reverse_elem. rewrite Hl. apply elem_of_app. by left.
    + assert (descending y x) as Hyx.
      { eapply StronglySorted_app_1_elem_of; [done..|]. by left. }
      assert (y ≠ x).
      { intros ->. apply NoDup_app in Hnd as (_ & Hnd & _).
        apply (Hnd x Hy). by left. }
      unfold descending in Hyx. lia.
  - intros [Hy Hxy]. apply sorted_reverse_elem in Hy. rewrite Hl in Hy.
    apply elem_of_app in Hy as [Hy|Hy]; [done|].
    apply elem_of_cons in Hy as [->|Hy]; [lia|].
    apply StronglySorted_app_1_r, StronglySorted_cons in Hs as [Hs _].
    rewrite Forall_forall in Hs. specialize (Hs y Hy).
    unfold descending in Hs. lia.
Qed.

(** ** The scan of a sentence *)

Section scan_facts.
Context (normalize : string → string).
Context (stop_words : gset string).
Context (grounder : Grounder).
Context (sent_split_fun : string → list string).
Context (organisms namespaces : option (list string)).
Context (context_text : option string).
Context (text_arg : string).

(** The answer of the resolver for a span text. *)
Definition resolve (txt_span : string) : list ScoredMatch :=
  ground grounder txt_span (default text_arg context_text) organisms namespaces.

(** The text of the span of [span] words at word [idx]. *)
Definition span_text (raw_words : list string) (idx : nat) (span : positive)
    : string :=
  join " " (slice raw_words idx (idx + Pos.to_nat span)).

(** The candidate spans tried at word [idx] whose normalized form is [word],
    in the order in which they are tried. *)
Definition candidates (n_words idx : nat) (word : string) : list positive :=
  sorted_reverse
    (filter (λ span, idx + Pos.to_nat span ≤ n_words)
            (default ∅ (prefix_index grounder !! word))).

Section sentence_facts.
Context (sent : nat) (raw_words : list string) (word_coords : list nat).
Context (n_words : nat).

Abbreviation try_spans' :=
  (try_spans grounder organisms namespaces context_text text_arg sent
     raw_words word_coords).
Abbreviation scan' :=
  (scan stop_words grounder organisms namespaces context_text text_arg sent
     raw_words word_coords n_words).

(** The events of candidates without a match. *)
Definition unmatched (idx : nat) (spans : list positive) : list event :=
  (λ span, Grounded sent idx span (span_text raw_words idx span) []) <$> spans.

(** The annotation appended for a span. *)
Definition annotation_of (idx : nat) (span : positive) : Annotation :=
  let n := Pos.to_nat span in
  mkAnnotation (span_text raw_words idx span)
    (resolve (span_text raw_words idx span))
    (nth idx word_coords 0)
    (nth (idx + n - 1) word_coords 0
     + String.length (nth (idx + n - 1) raw_words "")).

(** The events of the candidate that matches. *)
Definition matched (idx : nat) (span : positive) : list event :=
  [ Grounded sent idx span (span_text raw_words idx span)
      (resolve (span_text raw_words idx span));
    Appended sent idx span (annotation_of idx span) ].

(** The candidates are tried in order up to the first one with a match. *)
Lemma try_spans_inv idx spans :
  match (try_spans' idx spans).2 with
  | Some span =>
      ∃ l1 l2, spans = l1 ++ span :: l2
        ∧ Forall (λ s, resolve (span_text raw_words idx s) = []) l1
        ∧ resolve (span_text raw_words idx span) ≠ []
        ∧ (try_spans' idx spans).1 = unmatched idx l1 ++ matched idx span
  | None =>
      Forall (λ s, resolve (span_text raw_words idx s) = []) spans
      ∧ (try_spans' idx spans).1 = unmatched idx spans
  end.
Proof.
  induction spans as [|span spans IH]; simpl; [done|].
  fold (span_text raw_words idx span). fold (resolve (span_text raw_words idx span)).
  destruct (resolve (span_text raw_words idx span)) as [|m ms] eqn:Hr.
  - destruct (try_spans' idx spans) as [evs [found|]]; simpl in *.
    + destruct IH as (l1 & l2 & -> & Hl1 & Hm & ->).
      exists (span :: l1), l2. repeat split; try done. by constructor.
    + destruct IH as [Hall ->]. split; [by constructor|done].
  - simpl. exists [], spans. repeat split; try done.
    + by rewrite Hr.
    + unfold matched, annotation_of. by rewrite Hr.
Qed.

Lemma try_spans_tags idx spans e :
  e ∈ (try_spans' idx spans).1 → ev_sent e = sent ∧ ev_idx e = idx.
Proof.
  pose proof (try_spans_inv idx spans) as H.
  destruct (try_spans' idx spans) as [evs [span|]]; simpl in *.
  - destruct H as (l1 & l2 & _ & _ & _ & ->).
    rewrite elem_of_app. intros [He|He].
    + apply list_elem_of_fmap in He as (s & -> & _). done.
    + unfold matched in He.
      apply elem_of_cons in He as [->|He]; [done|].
      apply elem_of_cons in He as [->|He]; [done|].
      by apply elem_of_nil in He.
  - destruct H as [_ ->]. intros He.
    apply list_elem_of_fmap in He as (s & -> & _). done.
Qed.

(** The events of the candidates tried at word [idx]. *)
Definition tries (idx : nat) (word : string) : list event :=
  (try_spans' idx (candidates n_words idx word)).1.

(** Every event of the scan belongs to the candidates of its position,
    which is not before the scan's position and whose word is not a stop
    word; the scan has all the events of these candidates. *)
Lemma scan_inv idx skip_until words e :
  e ∈ scan' idx skip_until words →
  idx ≤ ev_idx e
  ∧ (∃ word, words !! (ev_idx e - idx) = Some word
      ∧ (word ∉ stop_words)
      ∧ e ∈ tries (ev_idx e) word
      ∧ tries (ev_idx e) word ⊆ scan' idx skip_until words).
Proof.
  revert idx skip_until. induction words as [|word words IH];
    intros idx skip_until; simpl; [by intros ?%elem_of_nil|].
  assert (∀ skip' evs, e ∈ scan' (S idx) skip' words →
    idx ≤ ev_idx e
    ∧ (∃ word0, (word :: words) !! (ev_idx e - idx) = Some word0
        ∧ (word0 ∉ stop_words)
        ∧ e ∈ tries (ev_idx e) word0
        ∧ tries (ev_idx e) word0 ⊆ evs ++ scan' (S idx) skip' words))
    as Hrec.
  { intros skip' evs (Hle & word0 & Hw & Hstop & He & Hsub)%IH. split; [lia|].
    exists word0. split; [|split; [done|split; [done|]]].
    - replace (ev_idx e - idx) with (S (ev_idx e - S idx)) by lia. done.
    - intros e' He'. apply elem_of_app. right. by apply Hsub. }
  case_bool_decide; [by apply (Hrec _ [])|].
  case_bool_decide as Hstop; [by apply (Hrec _ [])|].
  case_bool_decide; [by apply (Hrec _ [])|].
  fold (candidates n_words idx word).
  destruct (try_spans' idx (candidates n_words idx word)) as [evs found] eqn:Ht.
  rewrite elem_of_app. intros [He|He]; [|by eapply Hrec].
  assert (tries idx word = evs) as Htries by (unfold tries; by rewrite Ht).
  assert (e ∈ tries idx word) as He' by by rewrite Htries.
  apply try_spans_tags in He' as Htag. destruct Htag as [_ ->].
  split; [done|]. exists word. rewrite Nat.sub_diag.
  split; [done|split; [done|split; [by rewrite Htries|]]].
  rewrite Htries. intros e' He''. apply elem_of_app. by left.
Qed.

Lemma scan_sent idx skip_until words e :
  e ∈ scan' idx skip_until words → ev_sent e = sent.
Proof.
  intros (_ & word & _ & _ & He & _)%scan_inv.
  by apply try_spans_tags in He as [? _].
Qed.
End sentence_facts.

Lemma omap_appended_unmatched sent raw_words idx spans :
  omap appended (unmatched sent raw_words idx spans) = [].
Proof. induction spans; simpl; done. Qed.

Lemma candidates_fit n_words idx word span :
  span ∈ candidates n_words idx word →
  idx + Pos.to_nat span ≤ n_words
  ∧ span ∈ default ∅ (prefix_index grounder !! word).
Proof.
  unfold candidates. rewrite sorted_reverse_elem, elem_of_filter. done.
Qed.

(** The annotations of a sentence, as the trace gives them. *)
Definition sentence_events (sent base : nat) (raw_words : list string)
    (idx skip_until : nat) (words : list string) : list event :=
  scan stop_words grounder organisms namespaces context_text text_arg sent
    raw_words (word_coords_from base raw_words) (length raw_words)
    idx skip_until words.

(** The annotations of the words from [idx] on lie one after the other
    between the coordinate of the first word that may start a span and the
    coordinate after the last word. *)
Lemma scan_ordered sent base raw_words idx skip_until words :
  idx + length words = length raw_words →
  skip_until ≤ length raw_words →
  ordered_within
    (coord base raw_words (idx `max` skip_until))
    (coord base raw_words (length raw_words))
    (omap appended (sentence_events sent base raw_words idx skip_until words)).
Proof.
  unfold sentence_events.
  revert idx skip_until. induction words as [|word words IH];
    intros idx skip_until Hlen Hskip; simpl in *.
  { apply coord_mono. lia. }
  assert (∀ skip', skip' ≤ length raw_words → skip_until ≤ skip' →
    ordered_within
      (coord base raw_words (idx `max` skip_until))
      (coord base raw_words (length raw_words))
      (omap appended (sentence_events sent base raw_words (S idx) skip' words)))
    as Hrec.
  { intros skip' Hs1 Hs2. eapply ordered_within_weaken; [| |apply IH]; try done.
    - apply coord_mono. lia.
    - lia. }
  unfold sentence_events in Hrec.
  case_bool_decide as Hlt; [by apply Hrec|].
  case_bool_decide; [by apply Hrec|].
  case_bool_decide; [by apply Hrec|].
  fold (candidates (length raw_words) idx word).
  pose proof (try_spans_inv sent raw_words (word_coords_from base raw_words) idx
                (candidates (length raw_words) idx word)) as Hinv.
  destruct (try_spans _ _ _ _ _ _ _ _ idx _) as [evs [span|]]; simpl in Hinv.
  - destruct Hinv as (l1 & l2 & Hcand & _ & _ & ->).
    assert (span ∈ candidates (length raw_words) idx word) as Hspan.
    { rewrite Hcand. apply elem_of_app. right. by left. }
    apply candidates_fit in Hspan as [Hfit _].
    pose proof (Pos2Nat.is_pos span) as Hpos.
    rewrite !omap_app, omap_appended_unmatched. simpl.
    rewrite !word_coords_nth by lia.
    split; [apply coord_mono; lia|].
    split.
    + pose proof (coord_mono base raw_words idx (idx + Pos.to_nat span - 1)). lia.
    + pose proof (coord_S base raw_words (idx + Pos.to_nat span - 1)) as HS.
      replace (S (idx + Pos.to_nat span - 1)) with (idx + Pos.to_nat span) in HS by lia.
      eapply ordered_within_weaken; [| |apply IH]; try done; try lia.
      apply Nat.eq_le_incl.
      replace (S idx `max` (idx + Pos.to_nat span)) with (idx + Pos.to_nat span) by lia.
      rewrite HS by lia. lia.
  - destruct Hinv as [_ ->].
    rewrite omap_app, omap_appended_unmatched. simpl. by apply Hrec.
Qed.

(** ** The scan of a text *)

Abbreviation scan_sentences' :=
  (scan_sentences normalize stop_words grounder organisms namespaces
     context_text text_arg).

(** The text coordinate after the sentences. *)
Definition coord_after (text_coord : nat) (sentences : list string) : nat :=
  text_coord + total_width sentences.

Lemma raw_words_width sentence :
  total_width (raw_words_of sentence) ≤ String.length sentence + 1.
Proof.
  unfold raw_words_of. pose proof (split_width (rstrip period sentence)).
  pose proof (rstrip_length period sentence). lia.
Qed.

Lemma scan_sentences_ordered sent text_coord sentences :
  ordered_within text_coord (coord_after text_coord sentences)
    (omap appended (scan_sentences' sent text_coord sentences)).
Proof.
  revert sent text_coord. induction sentences as [|sentence sentences IH];
    intros sent text_coord; simpl.
  { unfold coord_after. lia. }
  rewrite omap_app.
  eapply ordered_within_app with (mid := text_coord + String.length sentence + 1).
  - pose proof (scan_ordered sent text_coord (raw_words_of sentence) 0 0
                  (normalize <$> raw_words_of sentence)) as Hs.
    unfold sentence_events in Hs. rewrite length_fmap in *.
    eapply ordered_within_weaken; [| |apply Hs]; try done; try lia.
    + unfold coord. simpl. unfold total_width. simpl. lia.
    + rewrite coord_end. pose proof (raw_words_width sentence). lia.
  - eapply ordered_within_weaken; [| |apply IH]; [done|].
    unfold coord_after, total_width. simpl. lia.
Qed.

(** C4. The annotations returned by [annotate] do not overlap and are in
    order: the end of each is at most the start of the next, and the list
    is sorted by start offset. *)
Theorem annotate_ordered :
  Sorted (λ a b, end_ a ≤ start b)
    (annotate normalize stop_words grounder sent_split_fun organisms
       namespaces context_text text_arg)
  ∧ StronglySorted (λ a b, start a ≤ start b)
      (annotate normalize stop_words grounder sent_split_fun organisms
         namespaces context_text text_arg).
Proof.
  unfold annotate, annotate_trace.
  eapply ordered_within_Sorted, scan_sentences_ordered.
Qed.
(** ** Where the events of a trace come from *)

(** The text coordinate at which sentence [k] starts. *)
Definition sentence_base (sentences : list string) (k : nat) : nat :=
  total_width (take k sentences).

(** The events of the candidates tried at word [idx] of a sentence that
    starts at [base]. *)
Definition sentence_tries (sent base : nat) (sentence : string) (idx : nat)
    (word : string) : list event :=
  tries sent (raw_words_of sentence)
    (word_coords_from base (raw_words_of sentence))
    (length (raw_words_of sentence)) idx word.

Lemma scan_sentences_inv sent0 text_coord sentences e :
  e ∈ scan_sentences' sent0 text_coord sentences →
  sent0 ≤ ev_sent e
  ∧ (∃ sentence word base,
       sentences !! (ev_sent e - sent0) = Some sentence
       ∧ base = text_coord + total_width (take (ev_sent e - sent0) sentences)
       ∧ (normalize <$> raw_words_of sentence) !! ev_idx e = Some word
       ∧ (word ∉ stop_words)
       ∧ e ∈ sentence_tries (ev_sent e) base sentence (ev_idx e) word
       ∧ sentence_tries (ev_sent e) base sentence (ev_idx e) word
         ⊆ scan_sentences' sent0 text_coord sentences).
Proof.
  revert sent0 text_coord. induction sentences as [|sentence sentences IH];
    intros sent0 text_coord; simpl; [by intros ?%elem_of_nil|].
  rewrite elem_of_app. intros [He|He].
  - apply scan_sent in He as Hsent. subst sent0.
    apply scan_inv in He as (_ & word & Hw & Hstop & He & Hsub).
    rewrite Nat.sub_0_r in Hw. rewrite length_fmap in He, Hsub.
    split; [lia|]. exists sentence, word, text_coord.
    rewrite Nat.sub_diag. simpl.
    split; [done|]. split; [unfold total_width; simpl; lia|].
    split; [done|]. split; [done|]. unfold sentence_tries.
    split; [done|].
    intros e' He'. apply elem_of_app. left. rewrite length_fmap. by apply Hsub.
  - apply IH in He as (Hle & sentence' & word & base & Hs & Hb & Hw & Hstop & He & Hsub).
    split; [lia|]. exists sentence', word, base.
    replace (ev_sent e - sent0) with (S (ev_sent e - S sent0)) by lia.
    split; [done|]. split.
    { rewrite Hb. simpl. unfold total_width. simpl. lia. }
    split; [done|]. split; [done|]. split; [done|].
    intros e' He'. apply elem_of_app. right. by apply Hsub.
Qed.

Abbreviation annotate_trace' :=
  (annotate_trace normalize stop_words grounder sent_split_fun organisms
     namespaces context_text text_arg).
Abbreviation annotate' :=
  (annotate normalize stop_words grounder sent_split_fun organisms
     namespaces context_text text_arg).

(** Every event of the trace belongs to the candidates tried at a word that
    is not a stop word, and the trace has all the events of these
    candidates. *)
Lemma annotate_trace_inv e :
  e ∈ annotate_trace' →
  ∃ sentence word,
    sent_split_fun text_arg !! ev_sent e = Some sentence
    ∧ (normalize <$> raw_words_of sentence) !! ev_idx e = Some word
    ∧ (word ∉ stop_words)
    ∧ e ∈ sentence_tries (ev_sent e)
            (sentence_base (sent_split_fun text_arg) (ev_sent e))
            sentence (ev_idx e) word
    ∧ sentence_tries (ev_sent e)
        (sentence_base (sent_split_fun text_arg) (ev_sent e))
        sentence (ev_idx e) word ⊆ annotate_trace'.
Proof.
  unfold annotate_trace.
  intros (_ & sentence & word & base & Hs & Hb & Hw & Hstop & He & Hsub)%scan_sentences_inv.
  rewrite Nat.sub_0_r in Hs, Hb. simpl in Hb. subst base.
  exists sentence, word. done.
Qed.

(** The candidates of a word: what [sentence_tries] holds. *)
Lemma sentence_tries_inv sent base sentence idx word :
  let raw_words := raw_words_of sentence in
  let word_coords := word_coords_from base raw_words in
  let spans := candidates (length raw_words) idx word in
  (∃ span l1 l2,
     spans = l1 ++ span :: l2
     ∧ Forall (λ s, resolve (span_text raw_words idx s) = []) l1
     ∧ resolve (span_text raw_words idx span) ≠ []
     ∧ sentence_tries sent base sentence idx word
       = unmatched sent raw_words idx l1
         ++ matched sent raw_words word_coords idx span)
  ∨ (Forall (λ s, resolve (span_text raw_words idx s) = []) spans
     ∧ sentence_tries sent base sentence idx word
       = unmatched sent raw_words idx spans).
Proof.
  intros raw_words word_coords spans. unfold sentence_tries, tries.
  pose proof (try_spans_inv sent raw_words word_coords idx spans) as Hinv.
  fold raw_words word_coords spans.
  destruct (try_spans _ _ _ _ _ _ _ _ idx spans) as [evs [span|]]; simpl in *.
  - left. destruct Hinv as (l1 & l2 & H). by exists span, l1, l2.
  - by right.
Qed.

Lemma elem_of_unmatched sent raw_words idx spans e :
  e ∈ unmatched sent raw_words idx spans ↔
  ∃ span, span ∈ spans
    ∧ e = Grounded sent idx span (span_text raw_words idx span) [].
Proof.
  unfold unmatched. rewrite list_elem_of_fmap. split.
  - intros (span & -> & Hspan). by exists span.
  - intros (span & Hspan & ->). by exists span.
Qed.

Lemma elem_of_matched sent raw_words word_coords idx span e :
  e ∈ matched sent raw_words word_coords idx span ↔
  e = Grounded sent idx span (span_text raw_words idx span)
        (resolve (span_text raw_words idx span))
  ∨ e = Appended sent idx span (annotation_of raw_words word_coords idx span).
Proof.
  unfold matched. rewrite !elem_of_cons, elem_of_nil. split.
  - intros [He|[He|[]]]; subst; auto.
  - intros [He|He]; subst; auto.
Qed.

(** C3. Longest match wins. When an annotation is appended for the span of
    [span] words at word [idx] of sentence [sent], every longer candidate
    of the prefix index for that word that fits in the sentence was given
    to the resolver, which returned an empty list, and no shorter candidate
    at that word was given to the resolver at all. *)
Theorem annotate_longest_match sent idx span a :
  Appended sent idx span a ∈ annotate_trace' →
  ∃ sentence word,
    sent_split_fun text_arg !! sent = Some sentence
    ∧ (normalize <$> raw_words_of sentence) !! idx = Some word
    ∧ text a = span_text (raw_words_of sentence) idx span
    ∧ matches a = resolve (text a)
    ∧ matches a ≠ []
    ∧ span ∈ default ∅ (prefix_index grounder !! word)
    ∧ (∀ span' : positive,
         span' ∈ default ∅ (prefix_index grounder !! word) →
         idx + Pos.to_nat span' ≤ length (raw_words_of sentence) →
         (span < span')%positive →
         resolve (span_text (raw_words_of sentence) idx span') = []
         ∧ Grounded sent idx span'
             (span_text (raw_words_of sentence) idx span') []
           ∈ annotate_trace')
    ∧ (∀ (span' : positive) txt_span res,
         (span' < span)%positive →
         Grounded sent idx span' txt_span res ∉ annotate_trace').
Proof.
  intros Ha.
  destruct (annotate_trace_inv _ Ha) as (sentence & word & Hs & Hw & _ & He & Hsub).
  simpl in *. exists sentence, word. split; [done|]. split; [done|].
  destruct (sentence_tries_inv sent (sentence_base (sent_split_fun text_arg) sent)
              sentence idx word) as [(s0 & l1 & l2 & Hcand & Hl1 & Hres & Ht)|[_ Ht]];
    simpl in *; rewrite Ht in He, Hsub; cycle 1.
  { apply elem_of_unmatched in He as (? & _ & [=]). }
  apply elem_of_app in He as [He|He].
  { apply elem_of_unmatched in He as (? & _ & [=]). }
  apply elem_of_matched in He as [[=]|[= <- ->]].
  assert (span ∈ candidates (length (raw_words_of sentence)) idx word) as Hspan.
  { rewrite Hcand. apply elem_of_app. right. by left. }
  apply candidates_fit in Hspan as [Hfit Hin]. simpl.
  split; [done|]. split; [done|]. split; [done|]. split; [done|]. split.
  - intros span' Hin' Hfit' Hlt.
    assert (span' ∈ l1) as Hl.
    { eapply sorted_reverse_before; [exact Hcand|]. split; [|done].
      apply elem_of_filter. done. }
    split.
    + rewrite Forall_forall in Hl1. by apply Hl1.
    + apply Hsub, elem_of_app. left. apply elem_of_unmatched. by exists span'.
  - intros span' txt_span res Hlt Hg.
    destruct (annotate_trace_inv _ Hg) as (sentence' & word' & Hs' & Hw' & _ & He' & _).
    simpl in *. rewrite Hs in Hs'. injection Hs' as <-.
    rewrite Hw in Hw'. injection Hw' as <-. rewrite Ht in He'.
    apply elem_of_app in He' as [He'|He'].
    + apply elem_of_unmatched in He' as (s' & Hs' & [= -> _ _]).
      eapply sorted_reverse_before in Hs' as [_ Hs']; [|exact Hcand]. lia.
    + apply elem_of_matched in He' as [[= -> _ _]|[=]]. lia.
Qed.

(** ** The annotations of a text *)

(** An annotation of the result comes from a span that starts at a word
    which is not a stop word and that fits in its sentence. *)
Lemma annotate_inv a :
  a ∈ annotate' →
  ∃ sent idx span sentence w,
    sent_split_fun text_arg !! sent = Some sentence
    ∧ raw_words_of sentence !! idx = Some w
    ∧ (normalize w ∉ stop_words)
    ∧ idx + Pos.to_nat span ≤ length (raw_words_of sentence)
    ∧ a = annotation_of (raw_words_of sentence)
            (word_coords_from (sentence_base (sent_split_fun text_arg) sent)
               (raw_words_of sentence))
            idx span.
Proof.
  unfold annotate. intros (e & He & Ha)%list_elem_of_omap.
  destruct e as [|sent idx span a']; [done|]. injection Ha as ->.
  destruct (annotate_trace_inv _ He) as (sentence & word & Hs & Hw & Hstop & Ht & _).
  simpl in *.
  apply list_lookup_fmap_Some_1 in Hw as (w & -> & Hw).
  exists sent, idx, span, sentence, w.
  split; [done|]. split; [done|]. split; [done|].
  destruct (sentence_tries_inv sent (sentence_base (sent_split_fun text_arg) sent)
              sentence idx (normalize w)) as [(s0 & l1 & l2 & Hcand & _ & _ & Heq)|[_ Heq]];
    simpl in *; rewrite Heq in Ht; cycle 1.
  { apply elem_of_unmatched in Ht as (? & _ & [=]). }
  apply elem_of_app in Ht as [Ht|Ht].
  { apply elem_of_unmatched in Ht as (? & _ & [=]). }
  apply elem_of_matched in Ht as [[=]|[= <- ->]].
  assert (span ∈ candidates (length (raw_words_of sentence)) idx (normalize w))
    as [Hfit _]%candidates_fit.
  { rewrite Hcand. apply elem_of_app. right. by left. }
  done.
Qed.

(** The words of a span that starts at word [idx]. *)
Lemma slice_cons (raw_words : list string) idx (span : positive) w :
  raw_words !! idx = Some w →
  ∃ rest, slice raw_words idx (idx + Pos.to_nat span) = w :: rest.
Proof.
  intros Hw. unfold slice. rewrite (drop_S _ _ _ Hw).
  pose proof (Pos2Nat.is_pos span).
  replace (idx + Pos.to_nat span - idx) with (S (Pos.to_nat span - 1)) by lia.
  by eexists.
Qed.

(** The first word of an annotation is not a stop word. *)
Lemma annotate_first_word :
  Forall (λ a, normalize (first_word (text a)) ∉ stop_words) annotate'.
Proof.
  apply Forall_forall. intros a (sent & idx & span & sentence & w & Hs & Hw & Hstop & Hfit & ->)%annotate_inv.
  simpl. unfold span_text.
  destruct (slice_cons _ _ span _ Hw) as [rest ->].
  rewrite first_word_join; [done|].
  pose proof (split_no_space (rstrip period sentence)) as Hns.
  rewrite Forall_forall in Hns. apply Hns.
  by eapply list_elem_of_lookup_2.
Qed.




(** ** The preprocessing of a sentence *)

(** The trace is the scans of the sentences, each with its number, its raw
    words and the word coordinates counted from its base. *)
Lemma scan_sentences_unfold sent0 text_coord sentences :
  scan_sentences' sent0 text_coord sentences
  = mjoin (imap (λ k sentence,
             sentence_events (sent0 + k)
               (text_coord + total_width (take k sentences))
               (raw_words_of sentence) 0 0 (normalize <$> raw_words_of sentence))
           sentences).
Proof.
  revert sent0 text_coord. induction sentences as [|sentence sentences IH];
    intros sent0 text_coord; [done|].
  simpl. rewrite IH. unfold sentence_events. rewrite !length_fmap.
  f_equal.
  - by rewrite !Nat.add_0_r.
  - f_equal. apply imap_ext. intros k s _. simpl.
    f_equal; [lia|]. f_equal. unfold total_width. simpl. lia.
Qed.

(** C7 (as amended). The sentences are scanned one by one, each from its base
    offset, the sum of (length + 1) over the sentences before it. The raw
    words of a sentence are the whitespace-separated words of the sentence
    without its trailing periods, all of them, and the start offset of each
    word is the base offset plus the sum of (length + 1) over the words
    before it. *)
Theorem sentence_preprocessing :
  annotate_trace'
  = mjoin (imap (λ sent sentence,
             sentence_events sent
               (sentence_base (sent_split_fun text_arg) sent)
               (raw_words_of sentence) 0 0 (normalize <$> raw_words_of sentence))
           (sent_split_fun text_arg))
  ∧ ∀ sentence base,
      (∃ k, sentence = rstrip period sentence +:+ replicate_char k period)
      ∧ ends_with period (rstrip period sentence) = false
      ∧ raw_words_of sentence = split (rstrip period sentence)
      ∧ length (word_coords_from base (raw_words_of sentence))
        = S (length (raw_words_of sentence))
      ∧ ∀ i, word_coords_from base (raw_words_of sentence) !! i
             = if bool_decide (i ≤ length (raw_words_of sentence))
               then Some (base + sum_list_with (λ w, String.length w + 1)
                                   (take i (raw_words_of sentence)))
               else None.
Proof.
  split.
  - unfold annotate_trace. by rewrite scan_sentences_unfold.
  - intros sentence base.
    split; [apply rstrip_run|]. split; [apply rstrip_maximal|].
    split; [done|]. split; [apply word_coords_length|].
    intros i. case_bool_decide as Hi.
    + pose proof (word_coords_nth base (raw_words_of sentence) i Hi) as Hn.
      rewrite nth_lookup in Hn.
      destruct (lookup_lt_is_Some_2 (word_coords_from base (raw_words_of sentence)) i)
        as [c Hc]; [rewrite word_coords_length; lia|].
      rewrite Hc in Hn. simpl in Hn. by rewrite Hc, Hn.
    + apply lookup_ge_None_2. rewrite word_coords_length. lia.
Qed.
End scan_facts.

(** The spec's reading of the period rule: one trailing period is stripped
    if present. *)
Fixpoint strip_one_period (s : string) : string :=
  match s with
  | "" => ""
  | String c "" => if Ascii.eqb c period then "" else s
  | String c s' => String c (strip_one_period s')
  end.

(** C7 (counterexample). The raw words of the sentence "ab.." are not the
    words of the sentence with one trailing period stripped: both periods
    are stripped. *)
Lemma raw_words_not_one_period :
  raw_words_of "ab.." = ["ab"]
  ∧ split (strip_one_period "ab..") = ["ab."]
  ∧ raw_words_of "ab.." ≠ split (strip_one_period "ab..").
Proof. by repeat split. Qed.

(** ** A resolver and two texts *)

Definition example_stop_words : gset string := {[ "a"; "the"; "of" ]}.

Definition example_grounder : Grounder :=
  mkGrounder
    {[ "mek" := {[ 1%positive; 2%positive ]};
       "erk" := {[ 1%positive ]};
       "vitamin" := {[ 2%positive ]} ]}
    (λ txt_span _ _ _,
       if decide (txt_span = "MEK") then [mkScoredMatch "fplx:MEK"]
       else if decide (txt_span = "ERK") then [mkScoredMatch "fplx:ERK"]
       else if decide (txt_span = "vitamin a") then [mkScoredMatch "chebi:vitamin-a"]
       else []).

(** The sentence splitter for a text of one sentence. *)
Definition one_sentence (text_arg : string) : list string := [text_arg].

Abbreviation example_trace :=
  (annotate_trace Process.normalize example_stop_words example_grounder
     one_sentence None None None).

Abbreviation example_annotate :=
  (annotate Process.normalize example_stop_words example_grounder
     one_sentence None None None).

Definition mek_annotation : Annotation :=
  mkAnnotation "MEK" [mkScoredMatch "fplx:MEK"] 0 3.

Definition erk_annotation : Annotation :=
  mkAnnotation "ERK" [mkScoredMatch "fplx:ERK"] 19 22.


Lemma example_trace_mek_erk :
  example_trace "MEK phosphorylates ERK"
  = [ Grounded 0 0 2 "MEK phosphorylates" [];
      Grounded 0 0 1 "MEK" [mkScoredMatch "fplx:MEK"];
      Appended 0 0 1 mek_annotation;
      Grounded 0 2 1 "ERK" [mkScoredMatch "fplx:ERK"];
      Appended 0 2 1 erk_annotation ].
Proof. vm_compute. reflexivity. Qed.

Lemma example_raw_words :
  raw_words_of "MEK phosphorylates ERK" = ["MEK"; "phosphorylates"; "ERK"].
Proof. vm_compute. reflexivity. Qed.

Lemma example_longer_candidate :
  2%positive ∈ default ∅ (prefix_index example_grounder !! Process.normalize "MEK").
Proof. apply (bool_decide_unpack _). vm_compute. exact I. Qed.

Lemma example_appended_mek :
  Appended 0 0 1 mek_annotation ∈ example_trace "MEK phosphorylates ERK".
Proof. rewrite example_trace_mek_erk. do 2 right. left. Qed.

Lemma annotate_longest_match_witness :
  Grounded 0 0 2 (span_text ["MEK"; "phosphorylates"; "ERK"] 0 2) []
  ∈ example_trace "MEK phosphorylates ERK".
Proof.
  destruct (annotate_longest_match Process.normalize example_stop_words
              example_grounder one_sentence None None None
              "MEK phosphorylates ERK" 0 0 1 mek_annotation)
    as (sentence & word & Hs & Hw & _ & _ & _ & _ & Hlonger & _).
  - apply example_appended_mek.
  - injection Hs as <-. rewrite example_raw_words in Hw, Hlonger.
    injection Hw as <-.
    destruct (Hlonger 2%positive) as [_ Hg].
    + apply example_longer_candidate.
    + simpl. lia.
    + lia.
    + exact Hg.
Defined.






(** C10. The normal form of the first word of an annotation is never a stop
    word. Later words may be stop words: with the stop word "a" and the
    entry "vitamin a", the text "take vitamin a daily" has the annotation
    "vitamin a". *)
Theorem annotate_first_word_not_stop_word :
  (∀ normalize stop_words grounder sent_split_fun organisms namespaces
     context_text text_arg,
     Forall (λ a, normalize (first_word (text a)) ∉ stop_words)
       (annotate normalize stop_words grounder sent_split_fun organisms
          namespaces context_text text_arg))
  ∧ (∃ a w,
       example_annotate "take vitamin a daily" = [a]
       ∧ split (text a) !! 1 = Some w
       ∧ Process.normalize w ∈ example_stop_words).
Proof.
  split.
  - intros. apply annotate_first_word.
  - exists (mkAnnotation "vitamin a" [mkScoredMatch "chebi:vitamin-a"] 5 14), "a".
    split; [vm_compute; reflexivity|]. split; [vm_compute; reflexivity|].
    apply (bool_decide_unpack _). vm_compute. exact I.
Qed.

(** ** [get_brat] *)

(** The export format as the spec gives it (section 6). The identifier
    written for an annotation: that of its top match, followed by
    "; Reading system: " and the entity type when the entity type is not
    "Entity". *)
Definition spec_curie (entity_type : string) (m : ScoredMatch) : string :=
  if decide (entity_type = "Entity") then term_curie m
  else term_curie m +:+ "; Reading system: " +:+ entity_type.

(** The two lines of the annotation numbered [idx]:
    T{idx}<TAB>{entityType} {start} {end}[<TAB>{text}] and
    #{idx}<TAB>AnnotatorNotes T{idx}<TAB>{curie}. *)
Definition spec_lines (entity_type : string) (include_text : bool) (idx : Z)
    (a : Annotation) : list string :=
  match head (matches a) with
  | Some m =>
      [ "T" +:+ str_of_Z idx +:+ chr tab +:+ entity_type +:+ " "
        +:+ str_of_nat (start a) +:+ " " +:+ str_of_nat (end_ a)
        +:+ (if include_text then chr tab +:+ text a else "");
        "#" +:+ str_of_Z idx +:+ chr tab +:+ "AnnotatorNotes T"
        +:+ str_of_Z idx +:+ chr tab +:+ spec_curie entity_type m ]
  | None => []
  end.

(** The lines of a list of annotations, the annotation at position [i]
    numbered [first + i]. *)
Definition spec_export (entity_type : string) (include_text : bool)
    (first : Z) (annotations : list Annotation) : list string :=
  mjoin (imap (λ i a, spec_lines entity_type include_text
                        (first + Z.of_nat i) a) annotations).

Lemma spec_export_cons entity_type include_text first a annotations :
  spec_export entity_type include_text first (a :: annotations)
  = spec_lines entity_type include_text first a
    ++ spec_export entity_type include_text (first + 1) annotations.
Proof.
  unfold spec_export. simpl. rewrite Z.add_0_r. f_equal. f_equal.
  apply imap_ext. intros i a' _. simpl. f_equal. lia.
Qed.

(** The rows of the loop are the lines of the format. *)
Lemma brat_rows_spec entity_type include_text idx annotations :
  Forall (λ a, matches a ≠ []) annotations →
  brat_rows entity_type include_text idx annotations
  = Ok (spec_export entity_type include_text idx annotations)
  ∧ length (spec_export entity_type include_text idx annotations)
    = 2 * length annotations.
Proof.
  intros Hall. revert idx. induction Hall as [|a annotations Ha _ IH]; intros idx.
  - done.
  - rewrite spec_export_cons. simpl. unfold first_match, spec_lines.
    destruct (matches a) as [|m ms] eqn:Hm; [done|]. simpl.
    destruct (IH (idx + 1)%Z) as [-> Hlen]. simpl. split; [|lia].
    do 3 f_equal. unfold note_row, spec_curie.
    case_bool_decide; destruct (decide _); done.
Qed.

(** C9. For annotations that each have a match, [get_brat] returns the lines
    of the format of the spec, two for every annotation and numbered from
    [max(1, ix_offset)], joined by newlines and followed by one newline;
    without annotations it returns the newline alone. *)
Theorem get_brat_rows annotations entity_type ix_offset include_text :
  Forall (λ a, matches a ≠ []) annotations →
  get_brat annotations entity_type ix_offset include_text
  = Ok (join (chr newline)
          (spec_export entity_type include_text (Z.max 1 ix_offset)
             annotations)
        +:+ chr newline)
  ∧ length (spec_export entity_type include_text (Z.max 1 ix_offset)
              annotations)
    = 2 * length annotations
  ∧ (annotations = [] →
     get_brat annotations entity_type ix_offset include_text
     = Ok (chr newline)).
Proof.
  intros Hall. unfold get_brat.
  destruct (brat_rows_spec entity_type include_text (Z.max 1 ix_offset)
              annotations Hall) as [-> Hlen].
  split; [done|]. split; [done|]. by intros ->.
Qed.

(** The export of two annotations with the index offset 0, and of one
    annotation with another entity type and without its text. *)
Lemma get_brat_rows_witness :
  get_brat [mek_annotation; erk_annotation] "Entity" 0 true
  = Ok ("T1" +:+ chr tab +:+ "Entity 0 3" +:+ chr tab +:+ "MEK" +:+ chr newline
        +:+ "#1" +:+ chr tab +:+ "AnnotatorNotes T1" +:+ chr tab +:+ "fplx:MEK"
        +:+ chr newline
        +:+ "T2" +:+ chr tab +:+ "Entity 19 22" +:+ chr tab +:+ "ERK"
        +:+ chr newline
        +:+ "#2" +:+ chr tab +:+ "AnnotatorNotes T2" +:+ chr tab +:+ "fplx:ERK"
        +:+ chr newline)
  ∧ get_brat [mek_annotation] "REACH" 5 false
    = Ok ("T5" +:+ chr tab +:+ "REACH 0 3" +:+ chr newline
          +:+ "#5" +:+ chr tab +:+ "AnnotatorNotes T5" +:+ chr tab
          +:+ "fplx:MEK; Reading system: REACH" +:+ chr newline).
Proof.
  split.
  - destruct (get_brat_rows [mek_annotation; erk_annotation] "Entity" 0 true)
      as (-> & _ & _).
    + repeat constructor; done.
    + reflexivity.
  - destruct (get_brat_rows [mek_annotation] "REACH" 5 false) as (-> & _ & _).
    + repeat constructor; done.
    + reflexivity.
Defined.

(** Without annotations the result is the newline alone. *)
Lemma get_brat_nil entity_type ix_offset include_text :
  get_brat [] entity_type ix_offset include_text = Ok (chr newline).
Proof. done. Qed.

(** An annotation without matches cannot be exported. *)
Lemma get_brat_no_match :
  get_brat [mkAnnotation "MEK" [] 0 3] "Entity" 1 true = Raise IndexError.
Proof. done. Qed.

End NerFacts.

(** * Further properties of gilda/scorer.py *)

Module ScorerExtras.
Import Py PyFacts Scorer ScorerFacts.

#[local] Set Warnings "-clear-no-such-hyp".

(** [s] has the character [c]. *)
Fixpoint has_char (c : ascii) (s : string) : bool :=
  match s with
  | "" => false
  | String a s' => bool_decide (a = c) || has_char c s'
  end.

Lemma has_char_tail c s : has_char c (tail s) = true → has_char c s = true.
Proof. destruct s; simpl; [done|]. intros ->. apply orb_true_r. Qed.

Lemma has_char_head c s : head s = Ok c → has_char c s = true.
Proof. destruct s; simpl; [done|]. intros [= ->]. by rewrite bool_decide_eq_true_2. Qed.

(** What the loop keeps: the sides recorded are sides, and a side is
    recorded, or has a dash left to read, only if its string has a dash. *)
Definition dashes_sound (query ref : string) (st : walk_state) : Prop :=
  sides (dash_seen st)
  ∧ (has_char dash (query_suffix st) = true → has_char dash query = true)
  ∧ (has_char dash (ref_suffix st) = true → has_char dash ref = true)
  ∧ ("query" ∈ dash_seen st → has_char dash query = true)
  ∧ ("ref" ∈ dash_seen st → has_char dash ref = true).

Lemma dash_step_sound query ref st st' :
  dashes_sound query ref st → dash_step st = Ok (Continue st') →
  dashes_sound query ref st'.
Proof.
  intros (Hs & Hq & Hr & Hdq & Hdr). unfold dash_step.
  destruct (head (query_suffix st)) as [q0|] eqn:Hq0; [|done].
  destruct (head (ref_suffix st)) as [r0|] eqn:Hr0; [|done]. simpl.
  pose proof (has_char_tail dash (query_suffix st)) as Htq.
  pose proof (has_char_tail dash (ref_suffix st)) as Htr.
  destruct (bool_decide (q0 = dash)) eqn:Hqd;
    destruct (bool_decide (r0 = dash)) eqn:Hrd; simpl; intros [= <-];
    unfold dashes_sound, sides in *; simpl;
    try apply bool_decide_eq_true in Hqd as ->;
    try apply bool_decide_eq_true in Hrd as ->;
    try apply has_char_head in Hq0; try apply has_char_head in Hr0;
    repeat split; auto; set_solver.
Qed.

Lemma walk_body_sound query ref st st' :
  dashes_sound query ref st → walk_body query ref st = Ok (Continue st') →
  dashes_sound query ref st'.
Proof.
  intros Hst. unfold walk_body.
  destruct (head (query_suffix st)) as [q0|] eqn:Hq0; [|done].
  destruct (head (ref_suffix st)) as [r0|] eqn:Hr0; [|done]. simpl.
  repeat case_match; try done.
  - apply dash_step_sound. destruct Hst as (Hs & Hq & Hr & Hdq & Hdr).
    unfold dashes_sound. simpl. repeat split; auto.
    + intros Ht. by apply Hq, has_char_tail.
    + intros Ht. by apply Hr, has_char_tail.
  - by apply dash_step_sound.
Qed.

Lemma walk_sound query ref fuel st st' :
  dashes_sound query ref st → walk query ref fuel st = Ok (Continue st') →
  dashes_sound query ref st'.
Proof.
  revert st. induction fuel as [|fuel IH]; intros st Hst; simpl.
  { by intros [= <-]. }
  destruct (walk_guard st); [|by intros [= <-]].
  destruct (walk_body query ref st) as [[st1|m]|e] eqn:Hb; simpl; try done.
  apply IH. by eapply walk_body_sound.
Qed.

(** The loop returns early with the space-mismatch match only. *)
Lemma dash_step_Return st m : dash_step st ≠ Ok (Return m).
Proof.
  unfold dash_step.
  destruct (head (query_suffix st)); [|done].
  destruct (head (ref_suffix st)); [|done]. simpl.
  repeat case_match; done.
Qed.

Lemma walk_body_Return query ref st m :
  walk_body query ref st = Ok (Return m) →
  m = mkMatch query ref None (Some true) None None.
Proof.
  unfold walk_body.
  destruct (head (query_suffix st)); [|done].
  destruct (head (ref_suffix st)); [|done]. simpl.
  repeat case_match; try (by intros ?%dash_step_Return). by intros [= <-].
Qed.

Lemma walk_Return query ref fuel st m :
  walk query ref fuel st = Ok (Return m) →
  m = mkMatch query ref None (Some true) None None.
Proof.
  revert st. induction fuel as [|fuel IH]; intros st; simpl; [done|].
  destruct (walk_guard st); [|done].
  destruct (walk_body query ref st) as [[st1|m1]|e] eqn:Hb; simpl; try done.
  - apply IH.
  - intros [= <-]. by eapply walk_body_Return.
Qed.


(** ** Strings without spaces and dashes *)

(** [s] has no space and no dash. *)
Fixpoint no_separator (s : string) : bool :=
  match s with
  | "" => true
  | String c s' =>
      negb (bool_decide (c = space)) && negb (bool_decide (c = dash))
      && no_separator s'
  end.

(** [s[:n]] *)
Definition prefix (n : nat) (s : string) : string := String.substring 0 n s.

Lemma add_to_last_app c pieces p :
  add_to_last c (pieces ++ [p]) = pieces ++ [p +:+ chr c].
Proof.
  induction pieces as [|x pieces IH]; [done|]. simpl.
  rewrite IH. by destruct pieces.
Qed.

(** On strings without separators the loop reads both strings in step, up
    to the end of the shorter one, into the last pair of pieces. *)
Lemma walk_plain query ref qs rs P p R r d fuel :
  no_separator qs = true → no_separator rs = true →
  String.length qs + String.length rs ≤ fuel →
  let n := String.length qs `min` String.length rs in
  ∃ qs' rs',
    walk query ref fuel (mkWalk qs rs (P ++ [p]) (R ++ [r]) d)
    = Ok (Continue (mkWalk qs' rs' (P ++ [p +:+ prefix n qs])
                           (R ++ [r +:+ prefix n rs]) d)).
Proof.
  revert rs p r fuel. induction qs as [|q0 qs IH]; intros rs p r fuel Hq Hr Hfuel n.
  { exists "", rs. rewrite walk_unfold by done. subst n. simpl.
    unfold prefix. destruct rs; simpl; by rewrite !string_app_nil_r. }
  destruct rs as [|r0 rs].
  { exists (String q0 qs), "". rewrite walk_unfold by done. subst n. simpl.
    by rewrite !string_app_nil_r. }
  simpl in Hq, Hr.
  apply andb_true_iff in Hq as [[Hq1 Hq2]%andb_true_iff Hq].
  apply andb_true_iff in Hr as [[Hr1 Hr2]%andb_true_iff Hr].
  apply negb_true_iff in Hq1, Hq2, Hr1, Hr2.
  rewrite walk_unfold by done.
  unfold walk_guard, walk_body, dash_step. simpl.
  rewrite Hq1, Hq2, Hr1, Hr2. simpl.
  rewrite !add_to_last_app. unfold remaining. simpl.
  destruct (IH rs (p +:+ chr q0) (r +:+ chr r0)
              (String.length qs + String.length rs) Hq Hr (le_n _))
    as (qs' & rs' & ->).
  exists qs', rs'. subst n. simpl. unfold prefix. simpl.
  by rewrite !string_app_assoc.
Qed.

Lemma sub_scores_None m : cap_combos m = None → sub_scores m = Raise TypeError.
Proof.
  intros Hcs. unfold sub_scores. cbn [mapM].
  unfold score_short_abbr, score_mixed, combo_in. rewrite Hcs. simpl.
  by case_bool_decide.
Qed.

Section generate_match_extras.
Context (normalize replace_dashes replace_whitespace : string → string).
Context (get_capitalization_pattern : string → bool → CapPattern).

Abbreviation generate_match :=
  (generate_match normalize replace_dashes replace_whitespace
     get_capitalization_pattern).

(** The canonical form compared by [generate_match]. *)
Definition canonical (s : string) : string := replace_dashes (replace_whitespace s).

Lemma generate_match_raises query ref bos e :
  generate_match query ref bos = Raise e → e = ValueError ∨ e = IndexError.
Proof.
  unfold Scorer.generate_match. case_bool_decide; [intros [= <-]; by left|].
  case_match; [done|].
  match goal with
  | |- context [walk ?q ?r ?f ?st] => destruct (walk q r f st) as [[st'|m]|e'] eqn:Hw
  end; simpl.
  - by case_match.
  - done.
  - intros [= <-]. right. by eapply walk_raises.
Qed.

(** X1. Two strings with the same normal form are aligned, or [IndexError]
    is raised; it is raised only when one of the two canonical strings ends
    with a space. *)
Theorem generate_match_outcomes query ref bos :
  normalize query = normalize ref →
  (∃ m, generate_match query ref bos = Ok m)
  ∨ (generate_match query ref bos = Raise IndexError
     ∧ (ends_with_space (canonical query) = true
        ∨ ends_with_space (canonical ref) = true)).
Proof.
  intros Hn.
  destruct (generate_match query ref bos) as [m|e] eqn:Hg; [left; by eexists|].
  right. destruct (generate_match_raises _ _ _ _ Hg) as [->| ->].
  { apply generate_match_ValueError_iff in Hg. done. }
  split; [done|].
  destruct (ends_with_space (canonical query)) eqn:Hq; [by left|].
  destruct (ends_with_space (canonical ref)) eqn:Hr; [by right|].
  destruct (generate_match_returns normalize replace_dashes replace_whitespace
              get_capitalization_pattern query ref bos Hn Hq Hr) as [m Hm].
  congruence.
Qed.

(** X2. A match returned by [generate_match] holds the two canonical strings
    and has one of three shapes: the exact match of the fast path, the
    space-mismatch match, or a match with [exact], [dash_mismatches] and
    [cap_combos] set and [space_mismatch] unset. *)
Theorem generate_match_shapes query ref bos m :
  generate_match query ref bos = Ok m →
  Scorer.query m = canonical query ∧ Scorer.ref m = canonical ref
  ∧ ((bos = false ∧ canonical query = canonical ref
      ∧ exact m = Some true ∧ space_mismatch m = None
      ∧ dash_mismatches m = None ∧ cap_combos m = None)
     ∨ (exact m = None ∧ space_mismatch m = Some true
        ∧ dash_mismatches m = None ∧ cap_combos m = None)
     ∨ (∃ e d cs, exact m = Some e ∧ space_mismatch m = None
        ∧ dash_mismatches m = Some d ∧ cap_combos m = Some cs)).
Proof.
  unfold Scorer.generate_match. fold (canonical query) (canonical ref).
  case_bool_decide; [done|].
  destruct (negb bos && bool_decide (canonical query = canonical ref)) eqn:Hfast.
  { intros [= <-]. simpl. split; [done|]. split; [done|]. left.
    apply andb_true_iff in Hfast as [Hb He%bool_decide_eq_true].
    apply negb_true_iff in Hb. done. }
  match goal with
  | |- context [walk ?q ?r ?f ?st] => destruct (walk q r f st) as [[st'|m']|e'] eqn:Hw
  end; simpl; [| |done].
  - case_match. intros [= <-]. simpl. split; [done|]. split; [done|].
    right. right. by eexists _, _, _.
  - intros [= <-]. apply walk_Return in Hw as ->. simpl.
    split; [done|]. split; [done|]. right. by left.
Qed.

(** X3. The sides recorded in [dash_mismatches] are "query" and "ref" only,
    and a side is recorded only if its canonical string has a dash. *)
Theorem generate_match_dashes query ref bos m d :
  generate_match query ref bos = Ok m →
  dash_mismatches m = Some d →
  d ⊆ {[ "query"; "ref" ]}
  ∧ ("query" ∈ d → has_char dash (canonical query) = true)
  ∧ ("ref" ∈ d → has_char dash (canonical ref) = true).
Proof.
  unfold Scorer.generate_match. fold (canonical query) (canonical ref).
  case_bool_decide; [done|].
  case_match; [by intros [= <-]|].
  match goal with
  | |- context [walk ?q ?r ?f ?st] => destruct (walk q r f st) as [[st'|m']|e'] eqn:Hw
  end; simpl; [| |done].
  - case_match. intros [= <-]. simpl. intros [= <-].
    apply walk_sound in Hw as (Hs & _ & _ & Hq & Hr); [done|].
    unfold dashes_sound, sides. simpl. repeat split; auto; set_solver.
  - intros [= <-]. by apply walk_Return in Hw as ->.
Qed.

(** X4. Two strings with the same normal form and without spaces and dashes
    are compared as one pair of pieces, the two strings cut to the length
    of the shorter one: what is left of the longer string is not looked at.
    The match is exact when the two pieces are equal and, at the beginning
    of a sentence, have the same capitalization pattern; otherwise the pair
    of patterns is the one entry of [cap_combos]. *)
Theorem generate_match_plain query ref bos :
  normalize query = normalize ref →
  no_separator (canonical query) = true →
  no_separator (canonical ref) = true →
  bos = true ∨ canonical query ≠ canonical ref →
  let n := String.length (canonical query) `min` String.length (canonical ref) in
  let qp := prefix n (canonical query) in
  let rp := prefix n (canonical ref) in
  let qcp := get_capitalization_pattern qp bos in
  let rcp := get_capitalization_pattern rp false in
  let same := bool_decide (qp = rp) && (negb bos || bool_decide (qcp = rcp)) in
  generate_match query ref bos
  = Ok (mkMatch (canonical query) (canonical ref) (Some same) None (Some ∅)
          (Some (if same then [] else [(qcp, rcp)]))).
Proof.
  intros Hn Hq Hr Hgen n qp rp qcp rcp same.
  unfold Scorer.generate_match. fold (canonical query) (canonical ref).
  rewrite bool_decide_eq_false_2 by (by intros []).
  assert (negb bos && bool_decide (canonical query = canonical ref) = false) as ->.
  { destruct Hgen as [->|Hne]; [done|].
    rewrite (bool_decide_eq_false_2 _ Hne). apply andb_false_r. }
  destruct (walk_plain (canonical query) (canonical ref) (canonical query)
              (canonical ref) [] "" [] "" ∅ _ Hq Hr (le_n _)) as (qs' & rs' & Hw).
  simpl in Hw. rewrite Hw. simpl. fold n. fold qp rp. fold qcp rcp. subst same.
  destruct (bool_decide (qp = rp)) eqn:Hp; destruct bos; simpl;
    try destruct (bool_decide (qcp = rcp)) eqn:Hc; simpl; try done.
Qed.

(** X7. A match returned by [generate_match] either has no [cap_combos], and
    then computing its sub-scores raises [TypeError], or has all six
    sub-scores, each in its range, [score_dash] between 0 and 2. *)
Theorem generate_match_sub_scores query ref bos m :
  generate_match query ref bos = Ok m →
  (cap_combos m = None ∧ sub_scores m = Raise TypeError)
  ∨ (∃ a b c d e f,
       sub_scores m = Ok [a; b; c; d; e; f]
       ∧ (0 ≤ a ≤ 1)%Z ∧ (0 ≤ b ≤ 2)%Z ∧ (0 ≤ c ≤ 1)%Z ∧ (0 ≤ d ≤ 2)%Z
       ∧ (-1 ≤ e ≤ 4)%Z ∧ (0 ≤ f ≤ 2)%Z).
Proof.
  unfold Scorer.generate_match. fold (canonical query) (canonical ref).
  case_bool_decide; [done|].
  case_match.
  { intros [= <-]. left. split; [done|]. by apply sub_scores_None. }
  match goal with
  | |- context [walk ?q ?r ?f ?st] => destruct (walk q r f st) as [[st'|m']|e'] eqn:Hw
  end; simpl; [| |done].
  - case_match. intros [= <-]. right.
    apply walk_sound in Hw as (Hs%dash_digit_bounds & _); cycle 1.
    { unfold dashes_sound, sides. simpl. repeat split; auto; set_solver. }
    erewrite sub_scores_Some by done. unfold digits. simpl.
    eexists _, _, _, _, _, _. split; [done|].
    match goal with
    | |- context [short_abbr_digit ?r ?cs] =>
        destruct (digit_bounds r (Some b) cs) as (Ha & Hb & Hc & Hd);
        pose proof (query_combo_bounds cs); pose proof (ref_combo_le cs)
    end.
    repeat split; lia.
  - intros [= <-]. apply walk_Return in Hw as ->. left.
    split; [done|]. by apply sub_scores_None.
Qed.
End generate_match_extras.

Lemma generate_match_outcomes_witness :
  (∃ m, Process.generate_match "mek" "MEK" false = Ok m)
  ∨ (Process.generate_match "mek" "MEK" false = Raise IndexError
     ∧ (ends_with_space (canonical Process.replace_dashes Process.replace_whitespace "mek") = true
        ∨ ends_with_space (canonical Process.replace_dashes Process.replace_whitespace "MEK") = true)).
Proof.
  apply (generate_match_outcomes Process.normalize Process.replace_dashes
           Process.replace_whitespace Process.get_capitalization_pattern
           "mek" "MEK" false).
  reflexivity.
Defined.

Definition mek_match : Match :=
  mkMatch "mek" "MEK" (Some false) None (Some ∅) (Some [(all_lower, all_caps)]).

Lemma generate_match_mek : Process.generate_match "mek" "MEK" false = Ok mek_match.
Proof. vm_compute. reflexivity. Qed.

Lemma generate_match_shapes_witness :
  Scorer.query mek_match = canonical Process.replace_dashes Process.replace_whitespace "mek".
Proof.
  destruct (generate_match_shapes Process.normalize Process.replace_dashes
              Process.replace_whitespace Process.get_capitalization_pattern
              "mek" "MEK" false mek_match generate_match_mek) as [Hq _].
  exact Hq.
Defined.

(** A query with two dashes where the reference has one: the second dash of
    the query is skipped alone and the side "query" is recorded. *)
Definition dash_match : Match :=
  mkMatch "a--b" "A-b" (Some true) None (Some {[ "query" ]})
    (Some [(all_lower, single_cap_letter)]).

Lemma generate_match_dash :
  Process.generate_match "a--b" "A-b" false = Ok dash_match.
Proof. vm_compute. reflexivity. Qed.

Lemma generate_match_dashes_witness :
  Process.generate_match "a--b" "A-b" false = Ok dash_match
  ∧ dash_mismatches dash_match = Some {[ "query" ]}
  ∧ ({[ "query" ]} : gset string) ⊆ {[ "query"; "ref" ]}
  ∧ has_char dash
      (canonical Process.replace_dashes Process.replace_whitespace "a--b")
    = true.
Proof.
  destruct (generate_match_dashes Process.normalize Process.replace_dashes
              Process.replace_whitespace Process.get_capitalization_pattern
              "a--b" "A-b" false dash_match {[ "query" ]}
              generate_match_dash eq_refl) as (Hd & Hq & _).
  split; [exact generate_match_dash|]. split; [reflexivity|].
  split; [exact Hd|]. apply Hq. by apply elem_of_singleton.
Defined.

Lemma generate_match_plain_witness :
  Process.generate_match "mek" "MEK" false
  = Ok (mkMatch "mek" "MEK" (Some false) None (Some ∅) (Some [(all_lower, all_caps)])).
Proof.
  unfold Process.generate_match.
  rewrite (generate_match_plain Process.normalize Process.replace_dashes
             Process.replace_whitespace Process.get_capitalization_pattern
             "mek" "MEK" false); [reflexivity..|].
  right. done.
Defined.


(** ** The sub-scores *)

Definition many_patterns : Match :=
  mkMatch "a b c d e f" "A B C D E F" (Some false) None (Some ∅)
    (Some [ (all_caps, all_caps); (all_lower, all_lower); (mixed, mixed);
            (initial_cap, initial_cap);
            (sentence_initial_cap, sentence_initial_cap);
            (sentence_initial, sentence_initial) ]).

(** X5. When the six sub-scores of a match are computed, [score_short_abbr]
    and [score_exact] are 0 or 1, [score_mixed] and [score_acic] are between
    0 and 2, [score_combo] is between -1 and 4, and [score_dash] is at most
    2, and at least 0 when [dash_mismatches] holds sides only. The bounds of
    [score_combo] are reached: it is -1 for a match with six patterns on
    each side, outside the digits 0 to 4 of its coefficient 5. *)
Theorem sub_score_ranges :
  (∀ m ds,
     sub_scores m = Ok ds →
     ∃ a b c d e f,
       ds = [a; b; c; d; e; f]
       ∧ (0 ≤ a ≤ 1)%Z ∧ (0 ≤ b ≤ 2)%Z ∧ (0 ≤ c ≤ 1)%Z ∧ (0 ≤ d ≤ 2)%Z
       ∧ (-1 ≤ e ≤ 4)%Z ∧ (f ≤ 2)%Z
       ∧ (∀ dm, dash_mismatches m = Some dm → sides dm → (0 ≤ f)%Z))
  ∧ score_combo many_patterns = Ok (-1)%Z
  ∧ score_combo exact_match = Ok 4%Z.
Proof.
  split; [|split; vm_compute; reflexivity].
  intros m ds (cs & dm & Hcs & Hdm & ->)%sub_scores_Ok.
  unfold digits. eexists _, _, _, _, _, _. split; [done|].
  destruct (digit_bounds (Scorer.ref m) (exact m) cs) as (Ha & Hb & Hc & Hd).
  pose proof (query_combo_bounds cs). pose proof (ref_combo_le cs).
  repeat split; try lia.
  intros dm' Hdm' Hs%dash_digit_bounds. rewrite Hdm in Hdm'. injection Hdm' as <-. lia.
Qed.

(** X6. The sub-scores raise nothing but [TypeError], and only on a match
    with unset fields: [score_exact] never raises; [score_mixed] and
    [score_combo] raise exactly when [cap_combos] is unset; [score_dash]
    exactly when [dash_mismatches] is unset; [score_short_abbr] exactly
    when [cap_combos] is unset and the reference has at most three
    characters; [score_acic] exactly when [cap_combos] is unset and [exact]
    is not [True]. *)
Theorem sub_score_errors (m : Match) :
  (∃ v, score_exact m = Ok v)
  ∧ (∀ e, score_mixed m = Raise e ↔ cap_combos m = None ∧ e = TypeError)
  ∧ (∀ e, score_combo m = Raise e ↔ cap_combos m = None ∧ e = TypeError)
  ∧ (∀ e, score_dash m = Raise e ↔ dash_mismatches m = None ∧ e = TypeError)
  ∧ (∀ e, score_short_abbr m = Raise e
          ↔ cap_combos m = None ∧ String.length (Scorer.ref m) ≤ 3
            ∧ e = TypeError)
  ∧ (∀ e, score_acic m = Raise e
          ↔ cap_combos m = None ∧ is_True (exact m) = false ∧ e = TypeError).
Proof.
  split; [by eexists|].
  unfold score_mixed, score_combo, score_dash, score_short_abbr, score_acic,
    combo_in, _query_cases, _ref_cases, combo_set, combos_falsy.
  destruct (cap_combos m) as [cs|]; destruct (dash_mismatches m) as [d|];
    destruct (is_True (exact m)); simpl;
    repeat split; intros; repeat case_match; simpl in *;
    repeat match goal with
    | H : _ ∧ _ |- _ => destruct H
    | H : bool_decide _ = true |- _ => apply bool_decide_eq_true in H
    | H : bool_decide _ = false |- _ => apply bool_decide_eq_false in H
    end; simplify_eq; try done; try lia.
Qed.

(** ** The loop of [score_string_match] *)

(** The number written with the digits [vs] in the mixed radix of the
    coefficients [cs], most significant digit first: every digit is
    multiplied by the product of the coefficients after its own. *)
Fixpoint place_value (vs cs : list Z) : Z :=
  match vs, cs with
  | v :: vs', _ :: cs' => (v * foldr Z.mul 1 cs' + place_value vs' cs')%Z
  | _, _ => 0%Z
  end.

(** The values returned by the terms for a match, each within its
    coefficient. *)
Definition digits_of (m : Match) (terms : list (attribute * Z)) (vs : list Z)
    : Prop :=
  Forall2 (λ (t : attribute * Z) v, call t.1 m = Ok v ∧ (0 ≤ v < t.2)%Z)
    terms vs.

Lemma digits_of_radix m terms vs :
  digits_of m terms vs →
  (0 ≤ place_value vs (terms.*2) < foldr Z.mul 1 (terms.*2))%Z.
Proof.
  induction 1 as [|[fn c] v terms vs [_ Hv] _ IH]; simpl in *; [lia|].
  change (list_fmap _ _ snd terms) with (terms.*2).
  assert (0 ≤ v * foldr Z.mul 1 (terms.*2))%Z by (apply Z.mul_nonneg_nonneg; lia).
  assert ((v + 1) * foldr Z.mul 1 (terms.*2) ≤ c * foldr Z.mul 1 (terms.*2))%Z
    by (apply Z.mul_le_mono_nonneg_r; lia).
  lia.
Qed.

(** The loop adds the place value of the digits to the score it starts
    from, shifted by the product of the coefficients. *)
Lemma score_terms_digits m terms vs score norm :
  digits_of m terms vs →
  score_terms m terms score norm
  = Ok ((score * foldr Z.mul 1 (terms.*2) + place_value vs (terms.*2))%Z,
        (norm * foldr Z.mul 1 (terms.*2))%Z).
Proof.
  assert (∀ a b a' b' : Z,
            a = a' → b = b' → Ok (a, b) = (Ok (a', b') : result (Z * Z)))
    as Hpair by (by intros ???? -> ->).
  intros Hd. revert score norm.
  induction Hd as [|[fn c] v terms vs [Hv _] _ IH]; intros score norm; simpl in *.
  - apply Hpair; lia.
  - rewrite Hv. simpl. rewrite IH.
    change (list_fmap _ _ snd terms) with (terms.*2).
    apply Hpair; ring.
Qed.

(** With digits within the coefficients, the order of the numbers is the
    lexicographic order of the digits. *)
Lemma place_value_lex m1 m2 terms vs1 vs2 :
  digits_of m1 terms vs1 → digits_of m2 terms vs2 →
  (place_value vs2 (terms.*2) < place_value vs1 (terms.*2))%Z
  ↔ lex_gt vs1 vs2 = true.
Proof.
  intros H1. revert vs2.
  induction H1 as [|[fn c] v1 terms vs1 [_ Hv1] Hd1 IH]; intros vs2 H2.
  - apply Forall2_nil_inv_l in H2 as ->. simpl. split; [lia|done].
  - apply Forall2_cons_inv_l in H2 as (v2 & vs2' & [_ Hv2] & Hd2 & ->).
    simpl in *. change (list_fmap _ _ snd terms) with (terms.*2).
    pose proof (digits_of_radix _ _ _ Hd1) as Hr1.
    pose proof (digits_of_radix _ _ _ Hd2) as Hr2.
    specialize (IH _ Hd2).
    rewrite orb_true_iff, andb_true_iff, Z.ltb_lt, Z.eqb_eq, <-IH.
    set (P := foldr Z.mul 1%Z (terms.*2)) in *.
    set (a := place_value vs1 (terms.*2)) in *.
    set (b := place_value vs2' (terms.*2)) in *.
    clearbody P a b. clear IH Hd1 Hd2.
    split.
    + intros Hlt. destruct (Z.lt_trichotomy v1 v2) as [Hc|[Hc|Hc]].
      * assert ((v1 + 1) * P ≤ v2 * P)%Z
          by (apply Z.mul_le_mono_nonneg_r; lia). lia.
      * right. subst. split; [done|lia].
      * by left.
    + intros [Hc|[-> Hc]]; [|lia].
      assert ((v2 + 1) * P ≤ v1 * P)%Z
        by (apply Z.mul_le_mono_nonneg_r; lia). lia.
Qed.

(** Of two tuples of the same length, one is lexicographically greater or
    they are equal. *)
Lemma lex_gt_neither vs1 vs2 :
  length vs1 = length vs2 →
  lex_gt vs1 vs2 = false → lex_gt vs2 vs1 = false → vs1 = vs2.
Proof.
  revert vs2. induction vs1 as [|x vs1 IH]; intros [|y vs2]; simpl; try done.
  intros [= Hlen].
  rewrite !orb_false_iff, !andb_false_iff, !Z.ltb_ge, !Z.eqb_neq.
  intros [H1 H2] [H3 H4]. assert (x = y) as -> by lia.
  f_equal. apply IH; [done|by destruct H2|by destruct H4].
Qed.

(** X8. The loop of [score_string_match] reads the values of its terms as
    the digits of a number in the mixed radix of the coefficients: when
    every term returns a value from 0 to its coefficient minus 1, the final
    [norm] is the product of the coefficients and the final [score] is the
    place value of the digits, between 0 and [norm - 1], so that, for a
    [norm] above 1, the quotient is between 0 and 1; and of two matches the
    one with the lexicographically greater digits has the greater score. *)
Theorem score_terms_mixed_radix m1 m2 terms vs1 vs2 :
  digits_of m1 terms vs1 → digits_of m2 terms vs2 →
  ∃ score1 score2 norm,
    score_terms m1 terms 0 1 = Ok (score1, norm)
    ∧ score_terms m2 terms 0 1 = Ok (score2, norm)
    ∧ norm = foldr Z.mul 1%Z (terms.*2)
    ∧ score1 = place_value vs1 (terms.*2)
    ∧ (0 ≤ score1 ≤ norm - 1)%Z
    ∧ ((score2 < score1)%Z ↔ lex_gt vs1 vs2 = true)
    ∧ (score1 = score2 ↔ vs1 = vs2)
    ∧ ((1 < norm)%Z → (0 <= normalized score1 norm <= 1)%Q).
Proof.
  intros H1 H2.
  rewrite (score_terms_digits _ _ _ 0 1 H1), (score_terms_digits _ _ _ 0 1 H2).
  eexists _, _, _. split; [reflexivity|].
  rewrite !Z.mul_0_l, !Z.add_0_l, !Z.mul_1_l.
  split; [reflexivity|]. split; [reflexivity|]. split; [reflexivity|].
  pose proof (digits_of_radix _ _ _ H1) as Hr1.
  split; [lia|]. split; [by apply (place_value_lex m1 m2)|]. split.
  - split; [|by intros ->]. intros Heq. apply lex_gt_neither.
    + apply Forall2_length in H1, H2. congruence.
    + destruct (lex_gt vs1 vs2) eqn:E; [|done].
      apply (place_value_lex m1 m2 terms) in E; [lia|done..].
    + destruct (lex_gt vs2 vs1) eqn:E; [|done].
      apply (place_value_lex m2 m1 terms) in E; [lia|done..].
  - intros Hn1. unfold normalized, Qle, Qdiv, Qmult, Qinv, inject_Z.
    destruct (foldr Z.mul 1 (terms.*2) - 1)%Z as [|p|p] eqn:Hp; try lia.
    simpl. split; nia.
Qed.

(** The terms of the loop under the names of the class, for the two matches
    of the ranking example: the digits 1 2 1 2 4 2 give 539 and the digits
    1 2 0 0 4 2 give 464, of 540. *)
Lemma score_terms_mixed_radix_witness :
  score_terms exact_match
    [ (IntMethod score_short_abbr, 2%Z); (IntMethod score_mixed, 3%Z);
      (IntMethod score_exact, 2%Z); (IntMethod score_acic, 3%Z);
      (IntMethod score_combo, 5%Z); (IntMethod score_dash, 3%Z) ] 0 1
  = Ok (539%Z, 540%Z)
  ∧ score_terms case_flip_match
      [ (IntMethod score_short_abbr, 2%Z); (IntMethod score_mixed, 3%Z);
        (IntMethod score_exact, 2%Z); (IntMethod score_acic, 3%Z);
        (IntMethod score_combo, 5%Z); (IntMethod score_dash, 3%Z) ] 0 1
    = Ok (464%Z, 540%Z)
  ∧ lex_gt [1; 2; 1; 2; 4; 2]%Z [1; 2; 0; 0; 4; 2]%Z = true
  ∧ (464 < 539)%Z.
Proof.
  destruct (score_terms_mixed_radix exact_match case_flip_match
    [ (IntMethod score_short_abbr, 2%Z); (IntMethod score_mixed, 3%Z);
      (IntMethod score_exact, 2%Z); (IntMethod score_acic, 3%Z);
      (IntMethod score_combo, 5%Z); (IntMethod score_dash, 3%Z) ]
    [1; 2; 1; 2; 4; 2]%Z [1; 2; 0; 0; 4; 2]%Z)
    as (s1 & s2 & n & Hs1 & Hs2 & Hn & Hv & _ & Hlex & _).
  - repeat constructor; simpl; lia.
  - repeat constructor; simpl; lia.
  - assert (lex_gt [1; 2; 1; 2; 4; 2]%Z [1; 2; 0; 0; 4; 2]%Z = true) as Hgt
      by reflexivity.
    apply Hlex in Hgt.
    assert (score_terms exact_match
              [ (IntMethod score_short_abbr, 2%Z); (IntMethod score_mixed, 3%Z);
                (IntMethod score_exact, 2%Z); (IntMethod score_acic, 3%Z);
                (IntMethod score_combo, 5%Z); (IntMethod score_dash, 3%Z) ] 0 1
            = Ok (539%Z, 540%Z)) as H1 by reflexivity.
    assert (score_terms case_flip_match
              [ (IntMethod score_short_abbr, 2%Z); (IntMethod score_mixed, 3%Z);
                (IntMethod score_exact, 2%Z); (IntMethod score_acic, 3%Z);
                (IntMethod score_combo, 5%Z); (IntMethod score_dash, 3%Z) ] 0 1
            = Ok (464%Z, 540%Z)) as H2 by reflexivity.
    rewrite H1 in Hs1. rewrite H2 in Hs2.
    injection Hs1 as <- <-. injection Hs2 as <-.
    split; [exact H1|]. split; [exact H2|]. split; [reflexivity|]. exact Hgt.
Defined.

Lemma generate_match_sub_scores_witness :
  (cap_combos mek_match = None ∧ sub_scores mek_match = Raise TypeError)
  ∨ (∃ a b c d e f,
       sub_scores mek_match = Ok [a; b; c; d; e; f]
       ∧ (0 ≤ a ≤ 1)%Z ∧ (0 ≤ b ≤ 2)%Z ∧ (0 ≤ c ≤ 1)%Z ∧ (0 ≤ d ≤ 2)%Z
       ∧ (-1 ≤ e ≤ 4)%Z ∧ (0 ≤ f ≤ 2)%Z).
Proof.
  exact (generate_match_sub_scores Process.normalize Process.replace_dashes
           Process.replace_whitespace Process.get_capitalization_pattern
           "mek" "MEK" false mek_match generate_match_mek).
Defined.

End ScorerExtras.

(** * Further properties of gilda/ner.py *)

Module NerExtras.
Import Py PyFacts Ner NerFacts.

#[local] Set Warnings "-clear-no-such-hyp".

(** *** [get_brat] *)

(** Joining two lists that are not empty. *)
Lemma join_app sep (l1 l2 : list string) :
  l1 ≠ [] → l2 ≠ [] →
  join sep (l1 ++ l2) = join sep l1 +:+ sep +:+ join sep l2.
Proof.
  induction l1 as [|x [|y l1] IH]; intros H1 H2; [done| |].
  - destruct l2 as [|z l2]; [done|]. reflexivity.
  - change ((x :: y :: l1) ++ l2) with (x :: (y :: l1) ++ l2).
    change ((y :: l1) ++ l2) with (y :: l1 ++ l2) at 1.
    rewrite join_cons. change (y :: l1 ++ l2) with ((y :: l1) ++ l2).
    rewrite IH by done. rewrite join_cons.
    by rewrite !string_app_assoc.
Qed.

(** The rows of two lists of annotations, the second numbered after the
    first. *)
Lemma brat_rows_app entity_type include_text idx l1 l2 :
  brat_rows entity_type include_text idx (l1 ++ l2)
  = rows1 ← brat_rows entity_type include_text idx l1;
    rows2 ← brat_rows entity_type include_text
              (idx + Z.of_nat (length l1))%Z l2;
    mret (rows1 ++ rows2).
Proof.
  revert idx. induction l1 as [|a l1 IH]; intros idx; simpl.
  - rewrite Z.add_0_r. by destruct (brat_rows _ _ _ l2).
  - destruct (first_match a); simpl; [|done].
    rewrite IH.
    replace (idx + 1 + Z.of_nat (length l1))%Z
      with (idx + Z.pos (Pos.of_succ_nat (length l1)))%Z by lia.
    destruct (brat_rows _ _ _ l1); simpl; [|done].
    by destruct (brat_rows _ _ _ l2).
Qed.

Lemma brat_rows_length entity_type include_text idx l rows :
  brat_rows entity_type include_text idx l = Ok rows →
  length rows = 2 * length l.
Proof.
  revert idx rows. induction l as [|a l IH]; intros idx rows; simpl.
  - by intros [= <-].
  - destruct (first_match a); simpl; [|done].
    destruct (brat_rows _ _ _ l) eqn:E; simpl; [|done].
    intros [= <-]. simpl. rewrite (IH _ _ E). lia.
Qed.

(** The loop returns when every annotation has a match and raises
    [IndexError] otherwise. *)
Lemma brat_rows_outcome entity_type include_text idx l :
  (Forall (λ a, matches a ≠ []) l
   ∧ ∃ rows, brat_rows entity_type include_text idx l = Ok rows)
  ∨ (Exists (λ a, matches a = []) l
     ∧ brat_rows entity_type include_text idx l = Raise IndexError).
Proof.
  revert idx. induction l as [|a l IH]; intros idx; simpl.
  - left. split; [constructor|by eexists].
  - unfold first_match. destruct (matches a) as [|m ms] eqn:Hm; simpl.
    + right. split; [by left|done].
    + destruct (IH (idx + 1)%Z) as [[HF [rows ->]]|[HE ->]]; simpl.
      * left. split; [|by eexists]. constructor; [by rewrite Hm|done].
      * right. split; [by right|done].
Qed.

(** X13. [get_brat] raises nothing but [IndexError], and raises it exactly
    when some annotation has an empty list of matches; it returns exactly
    when every annotation has a match. *)
Theorem get_brat_errors annotations entity_type ix_offset include_text :
  (∀ e, get_brat annotations entity_type ix_offset include_text = Raise e
        ↔ e = IndexError ∧ Exists (λ a, matches a = []) annotations)
  ∧ ((∃ s, get_brat annotations entity_type ix_offset include_text = Ok s)
     ↔ Forall (λ a, matches a ≠ []) annotations).
Proof.
  unfold get_brat.
  destruct (brat_rows_outcome entity_type include_text (Z.max 1 ix_offset)
              annotations) as [[HF [rows ->]]|[HE ->]]; simpl.
  - split.
    + intros e. split; [done|]. intros [_ HE].
      apply Exists_exists in HE as (a & Ha & Hm).
      rewrite Forall_forall in HF. by destruct (HF a Ha).
    + split; [done|]. intros _. by eexists.
  - split.
    + intros e. split; [by intros [= <-]|]. by intros [-> _].
    + split; [by intros [s ?]|]. intros HF.
      apply Exists_exists in HE as (a & Ha & Hm).
      rewrite Forall_forall in HF. by destruct (HF a Ha).
Qed.

(** X14. The export of a list of annotations in two batches: when neither
    batch is empty, the export of the second batch with the index offset
    moved by the length of the first, written after the export of the first,
    is the export of the whole list. *)
Theorem get_brat_batches l1 l2 entity_type ix_offset include_text s1 s2 :
  l1 ≠ [] → l2 ≠ [] →
  get_brat l1 entity_type ix_offset include_text = Ok s1 →
  get_brat l2 entity_type (Z.max 1 ix_offset + Z.of_nat (length l1))
    include_text = Ok s2 →
  get_brat (l1 ++ l2) entity_type ix_offset include_text = Ok (s1 +:+ s2).
Proof.
  unfold get_brat. intros Hl1 Hl2.
  replace (Z.max 1 (Z.max 1 ix_offset + Z.of_nat (length l1)))
    with (Z.max 1 ix_offset + Z.of_nat (length l1))%Z by lia.
  rewrite brat_rows_app.
  destruct (brat_rows _ _ _ l1) as [rows1|] eqn:E1; simpl; [|done].
  destruct (brat_rows _ _ _ l2) as [rows2|] eqn:E2; simpl; [|done].
  intros [= <-] [= <-]. f_equal.
  apply brat_rows_length in E1, E2.
  rewrite join_app.
  - by rewrite !string_app_assoc.
  - destruct rows1; [|done]. destruct l1; [done|simpl in E1; lia].
  - destruct rows2; [|done]. destruct l2; [done|simpl in E2; lia].
Qed.


(** *** Words and their joined text *)

(** Reading a word without whitespace adds it to the current run. *)
Lemma split_go_word cur w rest :
  has_space w = false → split_go cur (w +:+ rest) = split_go (cur +:+ w) rest.
Proof.
  revert cur. induction w as [|c w IH]; intros cur Hw; simpl.
  - by rewrite string_app_nil_r.
  - simpl in Hw. apply orb_false_iff in Hw as [-> Hw].
    rewrite IH by done. f_equal.
    rewrite string_app_assoc. reflexivity.
Qed.

Lemma string_app_nil a b : a +:+ b = "" → a = "" ∧ b = "".
Proof. destruct a; simpl; [done|discriminate]. Qed.

Lemma split_go_join cur w ws :
  cur +:+ w ≠ "" →
  Forall (λ w, has_space w = false ∧ w ≠ "") (w :: ws) →
  split_go cur (join " " (w :: ws)) = (cur +:+ w) :: ws.
Proof.
  revert cur w. induction ws as [|y ws IH]; intros cur w Hne HF.
  - apply Forall_cons in HF as [[Hw _] _]. simpl.
    rewrite <-(string_app_nil_r w) at 1. rewrite split_go_word by done.
    simpl. by destruct (decide _).
  - apply Forall_cons in HF as [[Hw _] HF].
    rewrite join_cons, split_go_word by done.
    assert (∀ c s, split_go c (" " +:+ s)
                   = if decide (c = "") then split_go "" s
                     else c :: split_go "" s) as -> by reflexivity.
    destruct (decide _) as [E|_]; [done|]. f_equal.
    pose proof HF as [[_ Hy] _]%Forall_cons.
    by apply (IH "" y).
Qed.

(** Splitting words joined by single spaces gives the words back. *)
Lemma split_join ws :
  Forall (λ w, has_space w = false ∧ w ≠ "") ws →
  split (join " " ws) = ws.
Proof.
  destruct ws as [|w ws]; [done|]. intros HF. unfold split.
  pose proof HF as [[_ Hw] _]%Forall_cons.
  by rewrite split_go_join.
Qed.

(** The words of [split] are not empty. *)
Lemma split_go_nonempty cur s : Forall (λ w, w ≠ "") (split_go cur s).
Proof.
  revert cur. induction s as [|c s IH]; intros cur; simpl.
  - destruct (decide _); [constructor|]. by constructor.
  - destruct (isspace c); [|apply IH].
    destruct (decide _); [apply IH|]. constructor; [done|apply IH].
Qed.

Lemma split_words s : Forall (λ w, has_space w = false ∧ w ≠ "") (split s).
Proof.
  apply Forall_and. split; [apply split_no_space|apply split_go_nonempty].
Qed.

Lemma slice_Forall {A} (P : A → Prop) l i j :
  Forall P l → Forall P (slice l i j).
Proof. intros. unfold slice. by apply Forall_take, Forall_drop. Qed.

Lemma slice_length {A} (l : list A) i j :
  j ≤ length l → length (slice l i j) = j - i.
Proof. intros. unfold slice. rewrite length_take, length_drop. lia. Qed.

(** *** [annotate] *)

Section annotate_extras.
Context (normalize : string → string).
Context (stop_words : gset string).
Context (grounder : Grounder).
Context (sent_split_fun : string → list string).
Context (organisms namespaces : option (list string)).
Context (context_text : option string).
Context (text_arg : string).

Abbreviation annotate_trace' :=
  (annotate_trace normalize stop_words grounder sent_split_fun organisms
     namespaces context_text text_arg).
Abbreviation annotate' :=
  (annotate normalize stop_words grounder sent_split_fun organisms
     namespaces context_text text_arg).
Abbreviation resolve' :=
  (resolve grounder organisms namespaces context_text text_arg).

(** The candidate spans of word [idx] of a sentence: the lengths of the index
    entries of the word that fit in the sentence. *)
Definition fits (sentence : string) (idx : nat) (word : string)
    (span : positive) : Prop :=
  span ∈ default ∅ (prefix_index grounder !! word)
  ∧ idx + Pos.to_nat span ≤ length (raw_words_of sentence).

(** What the trace tells about one of its events. *)
Lemma event_inv e :
  e ∈ annotate_trace' →
  ∃ sentence word span,
    sent_split_fun text_arg !! ev_sent e = Some sentence
    ∧ (normalize <$> raw_words_of sentence) !! ev_idx e = Some word
    ∧ (word ∉ stop_words)
    ∧ fits sentence (ev_idx e) word span
    ∧ (e = Grounded (ev_sent e) (ev_idx e) span
             (span_text (raw_words_of sentence) (ev_idx e) span)
             (resolve' (span_text (raw_words_of sentence) (ev_idx e) span))
       ∨ (e = Appended (ev_sent e) (ev_idx e) span
                (annotation_of grounder organisms namespaces context_text
                   text_arg (raw_words_of sentence)
                   (word_coords_from
                      (sentence_base (sent_split_fun text_arg) (ev_sent e))
                      (raw_words_of sentence))
                   (ev_idx e) span)))
    ∧ (resolve' (span_text (raw_words_of sentence) (ev_idx e) span) ≠ [] →
       matched grounder organisms namespaces context_text text_arg
         (ev_sent e) (raw_words_of sentence)
         (word_coords_from
            (sentence_base (sent_split_fun text_arg) (ev_sent e))
            (raw_words_of sentence))
         (ev_idx e) span ⊆ annotate_trace')
    ∧ (is_Some (appended e) →
       resolve' (span_text (raw_words_of sentence) (ev_idx e) span) ≠ []).
Proof.
  intros (sentence & word & Hs & Hw & Hstop & He & Hsub)%annotate_trace_inv.
  exists sentence, word.
  destruct (sentence_tries_inv grounder organisms namespaces context_text
              text_arg (ev_sent e)
              (sentence_base (sent_split_fun text_arg) (ev_sent e))
              sentence (ev_idx e) word)
    as [(span & l1 & l2 & Hc & Hl1 & Hres & Heq)|[Hall Heq]];
    rewrite Heq in He, Hsub.
  - apply elem_of_app in He as [He|He].
    + apply elem_of_unmatched in He as (s & Hin & He).
      assert (s ∈ candidates grounder (length (raw_words_of sentence))
                    (ev_idx e) word) as Hfit.
      { rewrite Hc. apply elem_of_app. by left. }
      apply candidates_fit in Hfit as [Hfit Hix].
      rewrite Forall_forall in Hl1. pose proof (Hl1 s Hin) as Hnil.
      exists s. split; [done|]. split; [done|]. split; [done|].
      split; [done|]. split; [left; by rewrite Hnil|].
      split; [by rewrite Hnil|]. rewrite He. by intros [? [=]].
    + assert (span ∈ candidates grounder (length (raw_words_of sentence))
                    (ev_idx e) word) as Hfit.
      { rewrite Hc. apply elem_of_app. right. by left. }
      apply candidates_fit in Hfit as [Hfit Hix].
      exists span. split; [done|]. split; [done|]. split; [done|].
      split; [done|]. apply elem_of_matched in He.
      split; [done|]. split; [|done].
      intros _ x Hx. apply Hsub, elem_of_app. by right.
  - apply elem_of_unmatched in He as (s & Hin & He).
    apply candidates_fit in Hin as Hfit. destruct Hfit as [Hfit Hix].
    rewrite Forall_forall in Hall. pose proof (Hall s Hin) as Hnil.
    exists s. split; [done|]. split; [done|]. split; [done|].
    split; [done|]. split; [left; by rewrite Hnil|].
    split; [by rewrite Hnil|]. rewrite He. by intros [? [=]].
Qed.

(** X9. [grounder.ground] is called only on the text of a span that starts
    at a word which is not a stop word, whose length is in the prefix index
    of that word and which fits in the sentence; the text is the raw words of
    the span joined by single spaces, and a call with a result that is not
    empty is followed by an annotation with this text and this result. *)
Theorem ground_calls sent idx span txt_span res :
  Grounded sent idx span txt_span res ∈ annotate_trace' →
  ∃ sentence word,
    sent_split_fun text_arg !! sent = Some sentence
    ∧ (normalize <$> raw_words_of sentence) !! idx = Some word
    ∧ (word ∉ stop_words)
    ∧ span ∈ default ∅ (prefix_index grounder !! word)
    ∧ idx + Pos.to_nat span ≤ length (raw_words_of sentence)
    ∧ txt_span = join " " (slice (raw_words_of sentence) idx
                             (idx + Pos.to_nat span))
    ∧ res = ground grounder txt_span (default text_arg context_text)
              organisms namespaces
    ∧ (res ≠ [] →
       ∃ a, Appended sent idx span a ∈ annotate_trace'
            ∧ a ∈ annotate' ∧ text a = txt_span ∧ matches a = res).
Proof.
  intros He. pose proof He as Hin.
  apply event_inv in He
    as (sentence & word & s & Hs & Hw & Hstop & [Hix Hfit] & He & Hm & _).
  simpl in *. destruct He as [[= -> -> ->]|[=]].
  exists sentence, word. do 7 (split; [done|]).
  intros Hres. specialize (Hm Hres).
  assert (Appended sent idx s
            (annotation_of grounder organisms namespaces context_text text_arg
               (raw_words_of sentence)
               (word_coords_from (sentence_base (sent_split_fun text_arg) sent)
                  (raw_words_of sentence)) idx s) ∈ annotate_trace') as Ha.
  { apply Hm, elem_of_matched. by right. }
  eexists. split; [exact Ha|]. split; [|done].
  unfold annotate. apply list_elem_of_omap. eexists. split; [exact Ha|done].
Qed.


Lemma annotation_inv a :
  a ∈ annotate' →
  ∃ e, e ∈ annotate_trace' ∧ appended e = Some a.
Proof. unfold annotate. by intros ?%list_elem_of_omap. Qed.

(** X10. Every annotation returned by [annotate] has a list of matches
    that is not empty, the result of [grounder.ground] on its text; so
    [get_brat] returns on the annotations of [annotate], for every entity
    type, index offset and [include_text]. *)
Theorem get_brat_annotate entity_type ix_offset include_text :
  Forall (λ a, matches a ≠ []
               ∧ matches a = ground grounder (text a)
                               (default text_arg context_text)
                               organisms namespaces) annotate'
  ∧ ∃ s, get_brat annotate' entity_type ix_offset include_text = Ok s.
Proof.
  assert (Forall (λ a, matches a ≠ []
               ∧ matches a = ground grounder (text a)
                               (default text_arg context_text)
                               organisms namespaces) annotate') as HF.
  { apply Forall_forall. intros a (e & He & Ha)%annotation_inv.
    apply event_inv in He
      as (sentence & word & s & _ & _ & _ & _ & He & _ & Hm).
    destruct He as [He|He]; rewrite He in Ha; simpl in Ha; [done|].
    injection Ha as <-. simpl. split; [|done]. apply Hm. by rewrite He. }
  split; [done|]. unfold get_brat.
  destruct (brat_rows_outcome entity_type include_text (Z.max 1 ix_offset)
              annotate') as [[_ [rows ->]]|[HE _]]; simpl; [by eexists|].
  apply Exists_exists in HE as (a & Ha & Hm).
  rewrite Forall_forall in HF. by destruct (HF a Ha) as [? _].
Qed.

(** X15. The text of an annotation of a span of [span] words splits into
    these words, the raw words of the sentence from [idx] on: it has [span]
    words and is what joining its words by single spaces gives. *)
Theorem annotation_words sent idx span a :
  Appended sent idx span a ∈ annotate_trace' →
  ∃ sentence,
    sent_split_fun text_arg !! sent = Some sentence
    ∧ split (text a)
      = slice (raw_words_of sentence) idx (idx + Pos.to_nat span)
    ∧ length (split (text a)) = Pos.to_nat span
    ∧ join " " (split (text a)) = text a.
Proof.
  intros He.
  apply event_inv in He
    as (sentence & word & s & Hs & _ & _ & [_ Hfit] & He & _).
  simpl in *. destruct He as [[=]|[= -> ->]].
  exists sentence. split; [done|]. simpl. unfold span_text.
  assert (split (join " " (slice (raw_words_of sentence) idx
                             (idx + Pos.to_nat s)))
          = slice (raw_words_of sentence) idx (idx + Pos.to_nat s)) as ->.
  { apply split_join, slice_Forall, split_words. }
  split; [done|]. split; [|done].
  rewrite slice_length by done. lia.
Qed.

(** *** The order of the scan *)

(** The first word that the scan may look up after an event: the word after
    the span of an annotation, and the same word after a call of [ground]. *)
Definition next_idx (e : event) : nat :=
  match e with
  | Grounded _ idx _ _ _ => idx
  | Appended _ idx span _ => idx + Pos.to_nat span
  end.

(** The events of one sentence from word [lo] on, each one not before the
    first word left by the one before it. *)
Fixpoint in_order (lo : nat) (evs : list event) : Prop :=
  match evs with
  | [] => True
  | e :: evs' => lo ≤ ev_idx e ∧ in_order (next_idx e) evs'
  end.

Lemma next_idx_ge e : ev_idx e ≤ next_idx e.
Proof. destruct e; simpl; lia. Qed.

Lemma in_order_weaken lo lo' evs : lo' ≤ lo → in_order lo evs → in_order lo' evs.
Proof. destruct evs; simpl; [done|]. intros ? [? ?]. split; [lia|done]. Qed.

Lemma in_order_from lo evs e : in_order lo evs → e ∈ evs → lo ≤ ev_idx e.
Proof.
  revert lo. induction evs as [|e' evs IH]; intros lo; simpl.
  - by intros _ ?%elem_of_nil.
  - intros [Hlo Hevs] [->|He]%elem_of_cons; [done|].
    pose proof (next_idx_ge e'). pose proof (IH _ Hevs He). lia.
Qed.

Lemma in_order_app lo evs1 evs2 :
  in_order lo evs1 →
  (∀ e, last evs1 = Some e → in_order (next_idx e) evs2) →
  (evs1 = [] → in_order lo evs2) →
  in_order lo (evs1 ++ evs2).
Proof.
  revert lo. induction evs1 as [|e evs1 IH]; intros lo H1 H2 H3; simpl.
  - by apply H3.
  - destruct H1 as [Hlo H1]. split; [done|]. apply IH; [done| |].
    + intros e' He'. apply H2. rewrite last_cons, He'. done.
    + intros ->. by apply H2.
Qed.

Lemma unmatched_in_order sent raw_words idx spans :
  in_order idx (unmatched sent raw_words idx spans).
Proof.
  induction spans as [|s spans IH]; simpl; [done|]. split; [done|apply IH].
Qed.

Lemma unmatched_last sent raw_words idx spans e :
  last (unmatched sent raw_words idx spans) = Some e → next_idx e = idx.
Proof.
  intros He%last_Some_elem_of. apply elem_of_unmatched in He as (s & _ & ->).
  done.
Qed.

Lemma scan_in_order sent raw_words word_coords n_words idx skip_until words :
  in_order (idx `max` skip_until)
    (scan stop_words grounder organisms namespaces context_text text_arg sent
       raw_words word_coords n_words idx skip_until words).
Proof.
  revert idx skip_until. induction words as [|word words IH];
    intros idx skip_until; simpl; [done|].
  case_bool_decide as Hlt.
  { eapply in_order_weaken; [|apply IH]. lia. }
  case_bool_decide.
  { eapply in_order_weaken; [|apply IH]. lia. }
  case_bool_decide.
  { eapply in_order_weaken; [|apply IH]. lia. }
  fold (candidates grounder n_words idx word).
  pose proof (try_spans_inv grounder organisms namespaces context_text
                text_arg sent raw_words word_coords idx
                (candidates grounder n_words idx word)) as Hinv.
  destruct (try_spans _ _ _ _ _ _ _ _ idx _) as [evs [span|]]; simpl in Hinv.
  - destruct Hinv as (l1 & l2 & _ & _ & _ & ->).
    replace (idx `max` skip_until) with idx by lia.
    rewrite <-app_assoc. apply in_order_app.
    + apply unmatched_in_order.
    + intros e ->%unmatched_last. simpl. split; [done|]. split; [done|].
      eapply in_order_weaken; [|apply IH]. lia.
    + intros _. simpl. split; [done|]. split; [done|].
      eapply in_order_weaken; [|apply IH]. lia.
  - destruct Hinv as [_ ->].
    replace (idx `max` skip_until) with idx by lia.
    apply in_order_app.
    + apply unmatched_in_order.
    + intros e ->%unmatched_last. eapply in_order_weaken; [|apply IH]. lia.
    + intros _. eapply in_order_weaken; [|apply IH]. lia.
Qed.

(** The events of a text: sentence after sentence, and in order within a
    sentence. *)
Fixpoint in_reading_order (sent : nat) (evs : list event) : Prop :=
  match evs with
  | [] => True
  | e :: evs' =>
      sent ≤ ev_sent e
      ∧ Forall (λ e', ev_sent e ≤ ev_sent e'
                      ∧ (ev_sent e' = ev_sent e → next_idx e ≤ ev_idx e')) evs'
      ∧ in_reading_order (ev_sent e) evs'
  end.

Lemma in_reading_order_weaken sent sent' evs :
  sent' ≤ sent → in_reading_order sent evs → in_reading_order sent' evs.
Proof. destruct evs; simpl; [done|]. intros ? (? & ? & ?). split; [lia|done]. Qed.

Lemma in_reading_order_app sent evs1 evs2 :
  Forall (λ e, ev_sent e = sent) evs1 →
  in_order 0 evs1 →
  in_reading_order (S sent) evs2 →
  Forall (λ e, S sent ≤ ev_sent e) evs2 →
  in_reading_order sent (evs1 ++ evs2).
Proof.
  intros Hs Ho H2 Hge. revert Hs. generalize 0 Ho. clear Ho.
  induction evs1 as [|e evs1 IH]; intros lo Ho Hs; simpl.
  - eapply in_reading_order_weaken; [|done]. lia.
  - apply Forall_cons in Hs as [He Hs]. destruct Ho as [_ Ho].
    split; [lia|]. split.
    + apply Forall_app. split.
      * apply Forall_forall. intros e' He'.
        rewrite Forall_forall in Hs. rewrite (Hs e' He'), He.
        split; [done|]. intros _. by eapply in_order_from.
      * eapply Forall_impl; [done|]. simpl. intros e' He'. lia.
    + rewrite He. by eapply IH.
Qed.

Lemma scan_sentences_sent sent0 text_coord sentences :
  Forall (λ e, sent0 ≤ ev_sent e)
    (scan_sentences normalize stop_words grounder organisms namespaces
       context_text text_arg sent0 text_coord sentences).
Proof.
  apply Forall_forall. by intros e [? _]%scan_sentences_inv.
Qed.

Lemma scan_sentences_in_order sent0 text_coord sentences :
  in_reading_order sent0
    (scan_sentences normalize stop_words grounder organisms namespaces
       context_text text_arg sent0 text_coord sentences).
Proof.
  revert sent0 text_coord. induction sentences as [|sentence sentences IH];
    intros sent0 text_coord; simpl; [done|].
  apply in_reading_order_app.
  - apply Forall_forall. intros e He. by apply scan_sent in He.
  - apply (scan_in_order _ _ _ _ 0 0).
  - apply IH.
  - apply scan_sentences_sent.
Qed.

Lemma in_reading_order_split sent l1 e1 l2 e2 :
  in_reading_order sent (l1 ++ e1 :: l2) → e2 ∈ l2 →
  ev_sent e1 ≤ ev_sent e2
  ∧ (ev_sent e2 = ev_sent e1 → next_idx e1 ≤ ev_idx e2).
Proof.
  revert sent. induction l1 as [|e l1 IH]; intros sent; simpl.
  - intros (_ & HF & _) He2. rewrite Forall_forall in HF. by apply HF.
  - intros (_ & _ & H). by apply (IH _ H).
Qed.

(** X12. The scan goes through the text in reading order and skips the
    words of an annotated span: of two events, the later one is not in an
    earlier sentence; in the same sentence it is not at an earlier word,
    and when the earlier event is an annotation of [span] words at word
    [idx], the later one is at word [idx + span] or after it. *)
Theorem annotate_reading_order l1 e1 l2 e2 :
  annotate_trace' = l1 ++ e1 :: l2 → e2 ∈ l2 →
  ev_sent e1 ≤ ev_sent e2
  ∧ (ev_sent e2 = ev_sent e1 →
     ev_idx e1 ≤ ev_idx e2
     ∧ ∀ sent idx span a,
         e1 = Appended sent idx span a → idx + Pos.to_nat span ≤ ev_idx e2).
Proof.
  intros Ht He2.
  pose proof (scan_sentences_in_order 0 0 (sent_split_fun text_arg)) as Ho.
  unfold annotate_trace in Ht. rewrite Ht in Ho.
  destruct (in_reading_order_split _ _ _ _ _ Ho He2) as [Hs Hi].
  split; [done|]. intros Heq. specialize (Hi Heq).
  pose proof (next_idx_ge e1). split; [lia|].
  intros sent idx span a ->. done.
Qed.


(** *** Texts without candidates *)

Lemma candidates_nil n_words idx word :
  candidates grounder n_words idx word = [] ↔
  ∀ span, span ∈ default ∅ (prefix_index grounder !! word) →
          n_words < idx + Pos.to_nat span.
Proof.
  unfold candidates. split.
  - intros Hnil span Hin.
    destruct (decide (idx + Pos.to_nat span ≤ n_words)) as [Hle|]; [|lia].
    assert (span ∈ sorted_reverse
              (filter (λ span, idx + Pos.to_nat span ≤ n_words)
                 (default ∅ (prefix_index grounder !! word)))) as Hs.
    { apply sorted_reverse_elem, elem_of_filter. done. }
    rewrite Hnil in Hs. by apply elem_of_nil in Hs.
  - intros Hall.
    destruct (sorted_reverse _) as [|s l] eqn:E; [done|].
    assert (s ∈ sorted_reverse
              (filter (λ span, idx + Pos.to_nat span ≤ n_words)
                 (default ∅ (prefix_index grounder !! word)))) as Hs.
    { rewrite E. by left. }
    apply sorted_reverse_elem, elem_of_filter in Hs as [Hle Hin].
    apply Hall in Hin. lia.
Qed.

Lemma scan_nil sent raw_words word_coords n_words idx skip_until words :
  skip_until ≤ idx →
  scan stop_words grounder organisms namespaces context_text text_arg sent
    raw_words word_coords n_words idx skip_until words = [] ↔
  ∀ j word span,
    words !! j = Some word → word ∉ stop_words →
    span ∈ default ∅ (prefix_index grounder !! word) →
    n_words < idx + j + Pos.to_nat span.
Proof.
  revert idx. induction words as [|word words IH]; intros idx Hskip; simpl.
  { split; [|done]. intros _ j word span Hj. by destruct j. }
  assert (scan stop_words grounder organisms namespaces context_text text_arg
            sent raw_words word_coords n_words (S idx) skip_until words = [] ↔
          ∀ j word span,
            words !! j = Some word → word ∉ stop_words →
            span ∈ default ∅ (prefix_index grounder !! word) →
            n_words < idx + S j + Pos.to_nat span) as Hrec.
  { rewrite IH by lia. split; intros H j w span Hj Hw Hin;
      specialize (H j w span Hj Hw Hin); lia. }
  case_bool_decide as Hlt; [lia|].
  case_bool_decide as Hstop.
  { rewrite Hrec. split.
    - intros H [|j] w span Hj Hw Hin; [|by eapply H].
      simpl in Hj. by simplify_eq.
    - intros H j w span Hj. by apply (H (S j)). }
  case_bool_decide as Hempty.
  { rewrite Hrec. split.
    - intros H [|j] w span Hj Hw Hin; [|by eapply H].
      simpl in Hj. simplify_eq. rewrite Hempty in Hin.
      by apply elem_of_empty in Hin.
    - intros H j w span Hj. by apply (H (S j)). }
  fold (candidates grounder n_words idx word).
  pose proof (try_spans_inv grounder organisms namespaces context_text
                text_arg sent raw_words word_coords idx
                (candidates grounder n_words idx word)) as Hinv.
  destruct (try_spans _ _ _ _ _ _ _ _ idx _) as [evs [span|]]; simpl in Hinv.
  - destruct Hinv as (l1 & l2 & Hc & _ & _ & ->). split.
    + intros Hnil. apply app_eq_nil in Hnil as [Hnil _].
      apply app_eq_nil in Hnil as [_ Hnil]. discriminate.
    + intros H. exfalso.
      assert (candidates grounder n_words idx word = []) as Hnil.
      { apply candidates_nil. intros s Hin.
        specialize (H 0 word s eq_refl Hstop Hin). lia. }
      rewrite Hnil in Hc. by destruct l1.
  - destruct Hinv as [_ ->]. split.
    + intros Hnil. apply app_eq_nil in Hnil as [Hnil Hrest].
      apply fmap_nil_inv in Hnil.
      rewrite Hrec in Hrest.
      intros [|j] w span Hj Hw Hin; [|by eapply Hrest].
      simpl in Hj. simplify_eq.
      pose proof (proj1 (candidates_nil n_words idx w) Hnil span Hin). lia.
    + intros H.
      assert (candidates grounder n_words idx word = []) as ->.
      { apply candidates_nil. intros s Hin.
        specialize (H 0 word s eq_refl Hstop Hin). lia. }
      simpl. apply Hrec. intros j w span Hj. by apply (H (S j)).
Qed.

Lemma scan_sentences_nil sent0 text_coord sentences :
  scan_sentences normalize stop_words grounder organisms namespaces
    context_text text_arg sent0 text_coord sentences = [] ↔
  ∀ sentence idx word span,
    sentence ∈ sentences →
    (normalize <$> raw_words_of sentence) !! idx = Some word →
    word ∉ stop_words →
    span ∈ default ∅ (prefix_index grounder !! word) →
    length (raw_words_of sentence) < idx + Pos.to_nat span.
Proof.
  revert sent0 text_coord. induction sentences as [|sentence sentences IH];
    intros sent0 text_coord; simpl.
  { split; [|done]. by intros _ ???? ?%elem_of_nil. }
  pose proof (scan_nil sent0 (raw_words_of sentence)
                (word_coords_from text_coord (raw_words_of sentence))
                (length (normalize <$> raw_words_of sentence)) 0 0
                (normalize <$> raw_words_of sentence) (le_n 0)) as Hsn.
  rewrite length_fmap in Hsn. rewrite length_fmap. simpl in Hsn.
  split.
  - intros [Hs Hrest]%app_eq_nil s idx word span [->|Hin]%elem_of_cons.
    + intros Hw Hstop Hspan. by apply (proj1 Hsn Hs idx word span).
    + by apply (proj1 (IH _ _) Hrest).
  - intros H. rewrite (proj2 Hsn); simpl.
    + apply (proj2 (IH _ _)). intros s idx word span Hin. apply H. by right.
    + intros j word span Hj Hstop Hspan. apply (H sentence j word span); try done.
      by left.
Qed.

(** X11. [annotate] makes no call of [grounder.ground] exactly when no
    word of the text that is not a stop word has, in the prefix index, a
    length that fits in its sentence; and it returns no annotation exactly
    when every call of [grounder.ground] returned an empty list. *)
Theorem annotate_no_candidates :
  (annotate_trace' = [] ↔
   ∀ sentence idx word span,
     sentence ∈ sent_split_fun text_arg →
     (normalize <$> raw_words_of sentence) !! idx = Some word →
     word ∉ stop_words →
     span ∈ default ∅ (prefix_index grounder !! word) →
     length (raw_words_of sentence) < idx + Pos.to_nat span)
  ∧ (annotate' = [] ↔
     ∀ sent idx span txt_span res,
       Grounded sent idx span txt_span res ∈ annotate_trace' → res = []).
Proof.
  split; [apply scan_sentences_nil|]. split.
  - intros Hnil sent idx span txt_span res Hin.
    destruct res as [|m ms]; [done|]. exfalso.
    apply event_inv in Hin
      as (sentence & word & s & _ & _ & _ & _ & He & Hm & _).
    simpl in *. destruct He as [[= <- _ Hres]|[=]].
    assert (Appended sent idx span
              (annotation_of grounder organisms namespaces context_text
                 text_arg (raw_words_of sentence)
                 (word_coords_from
                    (sentence_base (sent_split_fun text_arg) sent)
                    (raw_words_of sentence)) idx span) ∈ annotate_trace')
      as Ha.
    { apply Hm; [by rewrite <-Hres|]. apply elem_of_matched. by right. }
    assert (annotation_of grounder organisms namespaces context_text
              text_arg (raw_words_of sentence)
              (word_coords_from
                 (sentence_base (sent_split_fun text_arg) sent)
                 (raw_words_of sentence)) idx span ∈ annotate') as Hin.
    { unfold annotate. apply list_elem_of_omap. eexists. split; [exact Ha|done]. }
    rewrite Hnil in Hin. by apply elem_of_nil in Hin.
  - intros Hall. destruct annotate' as [|a l] eqn:E; [done|]. exfalso.
    assert (a ∈ annotate') as Ha by (rewrite E; by left).
    apply annotation_inv in Ha as (e & He & Hap).
    apply event_inv in He
      as (sentence & word & s & _ & _ & _ & _ & _ & Hm & Hres).
    assert (is_Some (appended e)) as Hsome by by rewrite Hap.
    specialize (Hres Hsome). apply Hres. eapply Hall.
    apply (Hm Hres), elem_of_matched. by left.
Qed.


(** *** The calls of [ground] *)

(** The sentence, the word and the span of a call of [ground]. *)
Definition ground_key (e : event) : option (nat * nat * positive) :=
  match e with
  | Grounded sent idx span _ _ => Some (sent, idx, span)
  | Appended _ _ _ _ => None
  end.

Lemma ground_key_tags e k :
  ground_key e = Some k → k.1.1 = ev_sent e ∧ k.1.2 = ev_idx e.
Proof. destruct e; simpl; [|done]. by intros [= <-]. Qed.

Lemma ground_keys_unmatched sent raw_words idx spans :
  omap ground_key (unmatched sent raw_words idx spans)
  = (λ span, (sent, idx, span)) <$> spans.
Proof. induction spans as [|s spans IH]; simpl; [done|]. f_equal. apply IH. Qed.

Lemma ground_keys_tries sent raw_words word_coords idx spans :
  NoDup spans →
  NoDup (omap ground_key
           (try_spans grounder organisms namespaces context_text text_arg
              sent raw_words word_coords idx spans).1).
Proof.
  intros Hnd.
  pose proof (try_spans_inv grounder organisms namespaces context_text
                text_arg sent raw_words word_coords idx spans) as Hinv.
  destruct (try_spans _ _ _ _ _ _ _ _ idx _) as [evs [span|]]; simpl in *.
  - destruct Hinv as (l1 & l2 & -> & _ & _ & ->).
    rewrite omap_app, ground_keys_unmatched. simpl.
    change ([(sent, idx, span)])
      with ((λ span, (sent, idx, span)) <$> [span]).
    rewrite <-fmap_app. apply NoDup_fmap_2; [by intros ?? [=]|].
    apply NoDup_app in Hnd as (H1 & H2 & H3).
    apply NoDup_app. split; [done|]. split; [|apply NoDup_singleton].
    intros x Hx ->%list_elem_of_singleton. apply (H2 _ Hx). by left.
  - destruct Hinv as [_ ->]. rewrite ground_keys_unmatched.
    apply NoDup_fmap_2; [by intros ?? [=]|done].
Qed.

Lemma ground_keys_scan sent raw_words word_coords n_words idx skip_until words :
  NoDup (omap ground_key
           (scan stop_words grounder organisms namespaces context_text
              text_arg sent raw_words word_coords n_words idx skip_until
              words)).
Proof.
  revert idx skip_until. induction words as [|word words IH];
    intros idx skip_until; simpl; [constructor|].
  case_bool_decide; [apply IH|].
  case_bool_decide; [apply IH|].
  case_bool_decide; [apply IH|].
  fold (candidates grounder n_words idx word).
  pose proof (ground_keys_tries sent raw_words word_coords idx
                (candidates grounder n_words idx word)
                (sorted_reverse_NoDup _)) as Hnd.
  pose proof (try_spans_tags grounder organisms namespaces context_text
                text_arg sent raw_words word_coords idx
                (candidates grounder n_words idx word)) as Htags.
  destruct (try_spans _ _ _ _ _ _ _ _ idx _) as [evs found]; simpl in *.
  rewrite omap_app. apply NoDup_app. split; [done|]. split; [|apply IH].
  intros k (e1 & He1 & Hk1)%list_elem_of_omap (e2 & He2 & Hk2)%list_elem_of_omap.
  apply ground_key_tags in Hk1 as [_ Hk1], Hk2 as [_ Hk2].
  apply Htags in He1 as [_ He1]. apply scan_inv in He2 as [He2 _]. lia.
Qed.

Lemma ground_keys_scan_sentences sent0 text_coord sentences :
  NoDup (omap ground_key
           (scan_sentences normalize stop_words grounder organisms namespaces
              context_text text_arg sent0 text_coord sentences)).
Proof.
  revert sent0 text_coord. induction sentences as [|sentence sentences IH];
    intros sent0 text_coord; simpl; [constructor|].
  rewrite omap_app. apply NoDup_app.
  split; [apply ground_keys_scan|]. split; [|apply IH].
  intros k (e1 & He1 & Hk1)%list_elem_of_omap (e2 & He2 & Hk2)%list_elem_of_omap.
  apply ground_key_tags in Hk1 as [Hk1 _], Hk2 as [Hk2 _].
  apply scan_sent in He1. apply scan_sentences_inv in He2 as [He2 _]. lia.
Qed.

(** X16. [grounder.ground] is called at most once for each span: the
    calls of a text differ in the sentence, the word or the length of the
    span. *)
Theorem ground_calls_once : NoDup (omap ground_key annotate_trace').
Proof. apply ground_keys_scan_sentences. Qed.

End annotate_extras.

(** ** A text with a span of two words *)

Definition vitamin_annotation : Annotation :=
  mkAnnotation "vitamin a" [mkScoredMatch "chebi:vitamin-a"] 0 9.

Definition mek_after_vitamin : Annotation :=
  mkAnnotation "MEK" [mkScoredMatch "fplx:MEK"] 10 13.

Lemma example_trace_vitamin :
  example_trace "vitamin a MEK"
  = [ Grounded 0 0 2 "vitamin a" [mkScoredMatch "chebi:vitamin-a"];
      Appended 0 0 2 vitamin_annotation;
      Grounded 0 2 1 "MEK" [mkScoredMatch "fplx:MEK"];
      Appended 0 2 1 mek_after_vitamin ].
Proof. vm_compute. reflexivity. Qed.

Lemma ground_calls_witness :
  ∃ a, a ∈ example_annotate "vitamin a MEK"
       ∧ text a = "vitamin a"
       ∧ matches a = [mkScoredMatch "chebi:vitamin-a"].
Proof.
  destruct (ground_calls Process.normalize example_stop_words
              example_grounder one_sentence None None None "vitamin a MEK"
              0 0 2 "vitamin a" [mkScoredMatch "chebi:vitamin-a"])
    as (sentence & word & _ & _ & _ & _ & _ & _ & _ & Ha).
  - rewrite example_trace_vitamin. left.
  - destruct Ha as (a & _ & Hin & Ht & Hm); [done|]. by exists a.
Defined.

Lemma annotate_reading_order_witness :
  ev_sent (Appended 0 0 2 vitamin_annotation)
  ≤ ev_sent (Grounded 0 2 1 "MEK" [mkScoredMatch "fplx:MEK"])
  ∧ 0 + Pos.to_nat 2 ≤ 2.
Proof.
  destruct (annotate_reading_order Process.normalize example_stop_words
              example_grounder one_sentence None None None "vitamin a MEK"
              [Grounded 0 0 2 "vitamin a" [mkScoredMatch "chebi:vitamin-a"]]
              (Appended 0 0 2 vitamin_annotation)
              [Grounded 0 2 1 "MEK" [mkScoredMatch "fplx:MEK"];
               Appended 0 2 1 mek_after_vitamin]
              (Grounded 0 2 1 "MEK" [mkScoredMatch "fplx:MEK"]))
    as [Hsent Hidx].
  - rewrite example_trace_vitamin. reflexivity.
  - left.
  - split; [exact Hsent|].
    destruct (Hidx eq_refl) as [_ Hskip].
    exact (Hskip 0 0 2%positive vitamin_annotation eq_refl).
Defined.

Lemma get_brat_batches_witness :
  ∃ s1 s2,
    get_brat [mek_annotation] "Entity" 1 true = Ok s1
    ∧ get_brat [erk_annotation] "Entity" 2 true = Ok s2
    ∧ get_brat [mek_annotation; erk_annotation] "Entity" 1 true
      = Ok (s1 +:+ s2).
Proof.
  eexists _, _. split; [reflexivity|]. split; [reflexivity|].
  apply (get_brat_batches [mek_annotation] [erk_annotation] "Entity" 1 true);
    [done|done|reflexivity|reflexivity].
Defined.

Lemma annotation_words_witness :
  split (text vitamin_annotation) = ["vitamin"; "a"]
  ∧ length (split (text vitamin_annotation)) = 2
  ∧ join " " (split (text vitamin_annotation)) = text vitamin_annotation.
Proof.
  destruct (annotation_words Process.normalize example_stop_words
              example_grounder one_sentence None None None "vitamin a MEK"
              0 0 2 vitamin_annotation)
    as (sentence & Hs & Hw & Hl & Hj).
  - rewrite example_trace_vitamin. right. left.
  - injection Hs as <-. split; [|done]. rewrite Hw. reflexivity.
Defined.

End NerExtras.
